(** * The deductive chart parser of [parser/parser.py] and its forest extraction

    The development embeds [Parser.parse], [Parser.successful_parse],
    [cky_chart] and the two generator entry points of [parser/parser.py].
    Python sets and dictionaries are finite sets and maps ([gset], [gmap]);
    the order in which Python iterates over a set is left open (class
    [SetOrder]); exceptions are results of type [result]. The item classes
    ([CfgItem], [HergItem], [CfgHergItem]) live in [item.py], the grammar and
    the hypergraph in other modules: the parser only uses their interface,
    which is the class [ItemAlgebra]. *)

From stdpp Require Import base decidable option list strings countable gmap.
From Stdlib Require Import ZArith Lia.

Set Default Proof Using "Type*".
Open Scope Z_scope.

(** ** Outcomes of Python code *)

(** The exceptions that the modelled code can raise. *)
Inductive exn :=
  | AssertionError | KeyError | IndexError | AttributeError | NameError
  | TypeError.

(** A call returns, raises, or (for the loops of the model) runs out of
    fuel. *)
Inductive result (A : Type) :=
  | Ok (a : A)
  | Raise (e : exn)
  | OutOfFuel.
Arguments Ok {A} a.
Arguments Raise {A} e.
Arguments OutOfFuel {A}.

#[global] Instance exn_eq_dec : EqDecision exn.
Proof. solve_decision. Defined.

#[global] Instance result_eq_dec `{EqDecision A} : EqDecision (result A).
Proof. solve_decision. Defined.

(** The value of a call that returned, [d] otherwise. *)
Definition result_get {A} (d : A) (r : result A) : A :=
  match r with
  | Ok a => a
  | _ => d
  end.

Definition is_ok {A} (r : result A) : bool :=
  match r with
  | Ok _ => true
  | _ => false
  end.

Definition result_bind {A B} (f : A → result B) (m : result A) : result B :=
  match m with
  | Ok a => f a
  | Raise e => Raise e
  | OutOfFuel => OutOfFuel
  end.

#[global] Instance result_mbind : MBind result := @result_bind.
#[global] Instance result_mret : MRet result := @Ok.
#[global] Instance result_fmap : FMap result :=
  λ A B f m, match m with Ok a => Ok (f a) | Raise e => Raise e | OutOfFuel => OutOfFuel end.

(** [assert c] of Python. *)
Definition py_assert (c : bool) : result unit :=
  if c then Ok () else Raise AssertionError.

(** ** Iteration order of sets *)

(** Python iterates over a set in an order fixed by the hashes of its
    elements. The model iterates over [set_iter (elements s)]: some
    rearrangement of the elements, the same one each time the same set is
    iterated. *)
Class SetOrder := {
  set_iter : ∀ A : Type, list A → list A;
  set_iter_perm : ∀ (A : Type) (l : list A), set_iter A l ≡ₚ l
}.
Arguments set_iter {_ _} _.

Definition iter `{SetOrder} `{Countable A} (s : gset A) : list A :=
  set_iter (elements s).

(** [s.pop()] on a set that was never popped before returns the element an
    iteration would give first. *)
Definition set_pop `{SetOrder} `{Countable A} (s : gset A) : option A :=
  head (iter s).

(** The order that leaves [elements] as it is. *)
Definition plain_order : SetOrder :=
  {| set_iter := λ A l, l; set_iter_perm := λ A l, reflexivity l |}.

(** ** [defaultdict(set)] *)

Section ddict.
Context `{Countable K} `{Countable V}.

(** [d[k]] *)
Definition dd_get (d : gmap K (gset V)) (k : K) : gset V :=
  default ∅ (d !! k).

(** [d[k].add(v)] *)
Definition dd_add (k : K) (v : V) (d : gmap K (gset V)) : gmap K (gset V) :=
  <[k := {[v]} ∪ dd_get d k]> d.

End ddict.

(** ** Interface of the collaborators *)

(** Symbols are Python strings: the parser compares them with the literal
    ['PARTIAL'] and with the grammar's start symbol. *)
Abbreviation Symbol := string (only parsing).

(** The three item classes from which [parse] picks its axiom class. *)
Inductive ItemClass := CfgItemC | HergItemC | CfgHergItemC.

(** What [parser.py] uses of [item.py], of the rules and of [Hgraph]. Every
    field is one attribute or method, under its Python name; [shift] and
    [can_shift], which [CfgItem] and [HergItem] both define with different
    parameters, get a prefix. *)
Class ItemAlgebra := {
  Rule : Type;
  Item : Type;
  Word : Type;
  Edge : Type;
  Label : Type;
  Graph : Type;
  Item_eq_dec :: EqDecision Item;
  Item_countable :: Countable Item;
  Word_eq_dec :: EqDecision Word;
  Word_countable :: Countable Word;
  Edge_eq_dec :: EqDecision Edge;
  Edge_countable :: Countable Edge;
  Label_eq_dec :: EqDecision Label;
  Label_countable :: Countable Label;
  (* axiom_class(rule, nodelabels = self.nodelabels) *)
  axiom : ItemClass → Rule → bool → Item;
  (* item.closed, item.rule.symbol *)
  closed : Item → bool;
  rule_symbol : Item → Symbol;
  (* the outside descriptor *)
  outside_is_nonterminal : Item → bool;
  outside_symbol : Item → Symbol;
  outside_nt_index : Item → Z;
  outside_word : Item → Word;
  outside_edge : Item → Label;
  outside_word_is_nonterminal : Item → bool;
  outside_edge_is_nonterminal : Item → bool;
  (* item.can_complete(oitem), item.complete(oitem) *)
  can_complete : Item → Item → bool;
  complete : Item → Item → Item;
  (* CfgItem: item.can_shift(word, index), item.shift(word, index), item.i, item.j *)
  cfg_can_shift : Item → Word → nat → bool;
  cfg_shift : Item → Word → nat → Item;
  item_i : Item → Z;
  item_j : Item → Z;
  (* HergItem: item.can_shift(edge), item.shift(edge), item.shifted *)
  herg_can_shift : Item → Edge → bool;
  herg_shift : Item → Edge → Item;
  shifted : Item → gset Edge;
  (* CfgHergItem *)
  can_shift_word : Item → Word → nat → bool;
  shift_word : Item → Word → nat → Item;
  can_shift_edge : Item → Edge → bool;
  shift_edge : Item → Edge → Item;
  cfg_item : Item → Item;
  herg_item : Item → Item;
  (* Hgraph: bool(graph), graph.triples(nodelabels = ...), edge[1] *)
  graph_bool : Graph → bool;
  triples : Graph → bool → list Edge;
  edge_label : Edge → Label
}.

(** What [parse] reads of the grammar: [grammar.values()],
    [grammar.start_symbol], [grammar.nodelabels]. *)
Record Grammar `{ItemAlgebra} := {
  rules : list Rule;
  start_symbol : Symbol;
  nodelabels : bool
}.

(** A chart key is the string ['START'] or an item. *)
Inductive Key `{ItemAlgebra} :=
  | START
  | KItem (i : Item).

#[global] Instance Key_eq_dec `{ItemAlgebra} : EqDecision Key.
Proof. solve_decision. Defined.

#[global] Instance Key_countable `{ItemAlgebra} : Countable Key.
Proof.
  refine (inj_countable' (λ k, match k with START => None | KItem i => Some i end)
                         (λ o, match o with None => START | Some i => KItem i end) _).
  by intros [].
Defined.

(** A production is a tuple of antecedent items. *)
Abbreviation Production := (list Item) (only parsing).
(** The raw chart: [ddict(set)] from keys to sets of productions. *)
Abbreviation RawChart := (gmap Key (gset (list Item))) (only parsing).

(** ** The agenda engine: [Parser.parse] *)

Section Engine.
Context `{SetOrder} `{ItemAlgebra}.

(** Truth value of the [string] and [graph] arguments: [None] and the empty
    sequence are false. *)
Definition string_bool (string : option (list Word)) : bool :=
  match string with
  | Some (_ :: _) => true
  | _ => false
  end.

Definition graph_arg_bool (graph : option Graph) : bool :=
  match graph with
  | Some g => graph_bool g
  | None => false
  end.

(** The local variables of [parse] that the loop changes. The last field is
    not a variable of the code: it logs, in order, the pairs on which
    [can_complete] is called. *)
Record State := mkState {
  chart : gmap Key (gset (list Item));
  queue : list Item;
  pending : gset Item;
  attempted : gset (Item * Item);
  visited : gset Item;
  nonterminal_lookup : gmap Symbol (gset Item);
  reverse_lookup : gmap Symbol (gset Item);
  success : bool;
  can_complete_calls : list (Item * Item)
}.

#[global] Instance State_eq_dec : EqDecision State.
Proof. solve_decision. Defined.

(** The local variables of [parse] that stay as they are once the loop
    starts; [input_string] and [input_graph] are the arguments [string] and
    [graph]. *)
Record Env := mkEnv {
  grammar : Grammar;
  input_string : option (list Word);
  input_graph : option Graph;
  string_size : Z;
  graph_size : Z;
  word_terminal_lookup : gmap Word (gset nat);
  edge_terminal_lookup : gmap Label (gset Edge)
}.

(** [Parser.successful_parse] *)
Definition successful_parse (gr : Grammar) (string : option (list Word))
    (graph : option Graph) (item : Item) (string_size graph_size : Z) : bool :=
  if negb (bool_decide (start_symbol gr = rule_symbol item)) then false
  else if string_bool string && graph_arg_bool graph then
    let whole_string :=
      bool_decide (item_j (cfg_item item) - item_i (cfg_item item) = string_size) in
    let whole_graph :=
      bool_decide (Z.of_nat (size (shifted (herg_item item))) = graph_size) in
    whole_string && whole_graph
  else if string_bool string then
    bool_decide (item_j item - item_i item = string_size)
  else
    bool_decide (Z.of_nat (size (shifted item)) = graph_size).

(** [chart[k].add(production)] *)
Definition chart_add (k : Key) (production : list Item) (st : State) : State :=
  mkState (dd_add k production (chart st)) (queue st) (pending st)
    (attempted st) (visited st) (nonterminal_lookup st) (reverse_lookup st)
    (success st) (can_complete_calls st).

(** [queue.append(x); pending.add(x)] *)
Definition enqueue (x : Item) (st : State) : State :=
  mkState (chart st) (queue st ++ [x]) ({[x]} ∪ pending st)
    (attempted st) (visited st) (nonterminal_lookup st) (reverse_lookup st)
    (success st) (can_complete_calls st).

(** Lines 118-120: [queue.popleft(); pending.remove(item); visited.add(item)],
    for a queue [item :: rest] and an [item] that is in [pending]. *)
Definition pop_item (item : Item) (rest : list Item) (st : State) : State :=
  mkState (chart st) rest (pending st ∖ {[item]})
    (attempted st) ({[item]} ∪ visited st) (nonterminal_lookup st)
    (reverse_lookup st) (success st) (can_complete_calls st).

Definition set_success (st : State) : State :=
  mkState (chart st) (queue st) (pending st) (attempted st) (visited st)
    (nonterminal_lookup st) (reverse_lookup st) true (can_complete_calls st).

(** [nonterminal_lookup[sym].add(item)] *)
Definition add_nonterminal (sym : Symbol) (item : Item) (st : State) : State :=
  mkState (chart st) (queue st) (pending st) (attempted st) (visited st)
    (dd_add sym item (nonterminal_lookup st)) (reverse_lookup st) (success st)
    (can_complete_calls st).

(** [reverse_lookup[sym].add(item)] *)
Definition add_reverse (sym : Symbol) (item : Item) (st : State) : State :=
  mkState (chart st) (queue st) (pending st) (attempted st) (visited st)
    (nonterminal_lookup st) (dd_add sym item (reverse_lookup st)) (success st)
    (can_complete_calls st).

(** [attempted.add((item, oitem))] *)
Definition attempt (item oitem : Item) (st : State) : State :=
  mkState (chart st) (queue st) (pending st) ({[(item, oitem)]} ∪ attempted st)
    (visited st) (nonterminal_lookup st) (reverse_lookup st) (success st)
    (can_complete_calls st).

(** The call [item.can_complete(oitem)]: its value, and the state in which
    the call is logged. *)
Definition call_can_complete (item oitem : Item) (st : State) : bool * State :=
  (can_complete item oitem,
   mkState (chart st) (queue st) (pending st) (attempted st) (visited st)
     (nonterminal_lookup st) (reverse_lookup st) (success st)
     (can_complete_calls st ++ [(item, oitem)])).

(** Lines 160-163 and 189-192: record a production for [nitem] and enqueue
    [nitem] if it is neither pending nor visited. *)
Definition record_item (production : list Item) (st : State) (nitem : Item) : State :=
  let st := chart_add (KItem nitem) production st in
  if bool_decide (nitem ∉ pending st) && bool_decide (nitem ∉ visited st)
  then enqueue nitem st
  else st.

(** Lines 139-142: one round of the wake-up loop. *)
Definition wake_up (st : State) (ritem : Item) : State :=
  if bool_decide (ritem ∉ pending st) then enqueue ritem st else st.

(** Lines 149-163: one round of the completion loop. *)
Definition try_complete (item : Item) (st : State) (oitem : Item) : State :=
  if bool_decide ((item, oitem) ∈ attempted st) then st
  else
    let st := attempt item oitem st in
    let '(completes, st) := call_can_complete item oitem st in
    if negb completes then st
    else record_item [item; oitem] st (complete item oitem).

(** Lines 166-185: the items that shifting gives for [item]. *)
Definition shift_candidates (env : Env) (item : Item) : result (list Item) :=
  if string_bool (input_string env) && graph_arg_bool (input_graph env) then
    if negb (outside_word_is_nonterminal item) then
      Ok (omap (λ index,
                  if can_shift_word item (outside_word item) index
                  then Some (shift_word item (outside_word item) index)
                  else None)
               (iter (dd_get (word_terminal_lookup env) (outside_word item))))
    else
      _ ← py_assert (negb (outside_edge_is_nonterminal item));
      Ok (omap (λ edge,
                  if can_shift_edge item edge
                  then Some (shift_edge item edge)
                  else None)
               (iter (dd_get (edge_terminal_lookup env) (outside_edge item))))
  else if string_bool (input_string env) then
    Ok (omap (λ index,
                if cfg_can_shift item (outside_word item) index
                then Some (cfg_shift item (outside_word item) index)
                else None)
             (iter (dd_get (word_terminal_lookup env) (outside_word item))))
  else
    _ ← py_assert (graph_arg_bool (input_graph env));
    Ok (omap (λ edge,
                if herg_can_shift item edge
                then Some (herg_shift item edge)
                else None)
             (iter (dd_get (edge_terminal_lookup env) (outside_edge item)))).

(** Lines 118-192: the body of the [while queue] loop, for a queue
    [item :: rest]. [pending.remove(item)] raises [KeyError] when the item is
    not pending. *)
Definition handle (env : Env) (item : Item) (rest : list Item) (st : State)
    : result State :=
  if bool_decide (item ∉ pending st) then Raise KeyError
  else
    let st := pop_item item rest st in
    if closed item then
      let st :=
        if successful_parse (grammar env) (input_string env) (input_graph env) item
             (string_size env) (graph_size env)
        then set_success (chart_add START [item] st)
        else st in
      let st := add_nonterminal (rule_symbol item) item st in
      Ok (foldl wake_up st (iter (dd_get (reverse_lookup st) (rule_symbol item))))
    else if outside_is_nonterminal item then
      let st := add_reverse (outside_symbol item) item st in
      Ok (foldl (try_complete item) st
            (iter (dd_get (nonterminal_lookup st) (outside_symbol item))))
    else
      new_items ← shift_candidates env item;
      Ok (foldl (record_item [item]) st new_items).

(** [while queue: ...] *)
Fixpoint parse_loop (fuel : nat) (env : Env) (st : State) : result State :=
  match queue st with
  | [] => Ok st
  | item :: rest =>
    match fuel with
    | O => OutOfFuel
    | S fuel => st ← handle env item rest st; parse_loop fuel env st
    end
  end.

(** Lines 66-83: the axiom class and the sizes. *)
Definition axiom_class (string : option (list Word)) (graph : option Graph)
    : ItemClass :=
  if string_bool string && graph_arg_bool graph then CfgHergItemC
  else if string_bool string then CfgItemC
  else HergItemC.

Definition string_size_of (string : option (list Word)) : Z :=
  match string with
  | Some (w :: ws) => Z.of_nat (length (w :: ws))
  | _ => -1
  end.

Definition graph_size_of (gr : Grammar) (graph : option Graph) : Z :=
  match graph with
  | Some g => if graph_bool g then Z.of_nat (length (triples g (nodelabels gr))) else -1
  | None => -1
  end.

(** Lines 98-105: the terminal lookups. *)
Definition word_lookup_of (string : option (list Word)) : gmap Word (gset nat) :=
  match string with
  | Some (w :: ws) =>
    foldl (λ d (iw : nat * Word), dd_add iw.2 iw.1 d) ∅ (imap pair (w :: ws))
  | _ => ∅
  end.

Definition edge_lookup_of (gr : Grammar) (graph : option Graph)
    : gmap Label (gset Edge) :=
  match graph with
  | Some g =>
    if graph_bool g
    then foldl (λ d edge, dd_add (edge_label edge) edge d) ∅ (triples g (nodelabels gr))
    else ∅
  | None => ∅
  end.

Definition make_env (gr : Grammar) (string : option (list Word))
    (graph : option Graph) : Env :=
  mkEnv gr string graph (string_size_of string) (graph_size_of gr graph)
    (word_lookup_of string) (edge_lookup_of gr graph).

(** Lines 88-97 and 114: the empty tables. *)
Definition empty_state : State :=
  mkState ∅ [] ∅ ∅ ∅ ∅ ∅ false [].

(** Lines 106-111: one round of the seeding loop. *)
Definition seed (cls : ItemClass) (nl : bool) (st : State) (rule : Rule) : State :=
  let axiom := axiom cls rule nl in
  let st := enqueue axiom st in
  if outside_is_nonterminal axiom
  then add_reverse (outside_symbol axiom) axiom st
  else st.

Definition init_state (gr : Grammar) (string : option (list Word))
    (graph : option Graph) : State :=
  foldl (seed (axiom_class string graph) (nodelabels gr)) empty_state (rules gr).

(** [parse], with all its tables at the moment of the [return]. *)
Definition parse_run (fuel : nat) (gr : Grammar) (string : option (list Word))
    (graph : option Graph) : result State :=
  parse_loop fuel (make_env gr string graph) (init_state gr string graph).

(** [Parser.parse]: the raw chart. *)
Definition parse (fuel : nat) (gr : Grammar) (string : option (list Word))
    (graph : option Graph) : result (gmap Key (gset (list Item))) :=
  chart <$> parse_run fuel gr string graph.

End Engine.

(** ** Forest extraction: [cky_chart] *)

(** A key of [real_productions]: the string ['START'] or a pair
    [(outside_symbol, outside_nt_index)]. *)
Inductive RPKey :=
  | RPStart
  | RPSlot (symbol : Symbol) (index : Z).

#[global] Instance RPKey_eq_dec : EqDecision RPKey.
Proof. solve_decision. Defined.

#[global] Instance RPKey_countable : Countable RPKey.
Proof.
  refine (inj_countable'
            (λ k, match k with RPStart => None | RPSlot s n => Some (s, n) end)
            (λ o, match o with None => RPStart | Some (s, n) => RPSlot s n end) _).
  by intros [].
Defined.

(** [x[n]] on a tuple. *)
Definition py_index {A} (x : list A) (n : nat) : result A :=
  match x !! n with
  | Some a => Ok a
  | None => Raise IndexError
  end.

(** A list comprehension whose element expression can raise. *)
Fixpoint comprehension {A B} (f : A → result B) (l : list A) : result (list B) :=
  match l with
  | [] => Ok []
  | x :: l => y ← f x; ys ← comprehension f l; Ok (y :: ys)
  end.

(** A [for] loop whose body can raise. *)
Fixpoint for_loop {A S} (body : S → A → result S) (s : S) (l : list A) : result S :=
  match l with
  | [] => Ok s
  | x :: l => s ← body s x; for_loop body s l
  end.

Section Extraction.
Context `{SetOrder} `{ItemAlgebra}.

(** Lines 232-241. The head of the list is the top of the stack: [pop]
    takes it, and the antecedents are pushed one by one. *)
Definition push_antecedents (stack : list Key) (productions : list (list Item))
    : list Key :=
  foldl (λ stack production, foldl (λ stack citem, KItem citem :: stack) stack production)
        stack productions.

Fixpoint visit_loop (fuel : nat) (chart : gmap Key (gset (list Item)))
    (stack : list Key) (visit_items : gset Key) : result (gset Key) :=
  match stack with
  | [] => Ok visit_items
  | item :: stack =>
    match fuel with
    | O => OutOfFuel
    | S fuel =>
      if bool_decide (item ∈ visit_items) then visit_loop fuel chart stack visit_items
      else visit_loop fuel chart
             (push_antecedents stack (iter (dd_get chart item)))
             ({[item]} ∪ visit_items)
    end
  end.

(** Lines 257-292: one round of the [while True] loop. The result is the
    new [real_productions] with [None] after a [break], or with the next
    [pitem]. *)
Definition walk_step (chart : gmap Key (gset (list Item))) (pitem : Key)
    (real_productions : gmap RPKey (list Item))
    : result (gmap RPKey (list Item) * option Key) :=
  let productions := dd_get chart pitem in
  if bool_decide (size productions = 0%nat) then Ok (real_productions, None)
  else
    match pitem with
    | START =>
      (* real_productions['START'] = list(sum(chart[pitem], ())) *)
      Ok (<[RPStart := concat (iter productions)]> real_productions, None)
    | KItem item =>
      if bool_decide (rule_symbol item = "PARTIAL"%string) then
        _ ← py_assert (bool_decide (size productions = 1%nat));
        prod ← py_index (iter productions) 0;
        match prod with
        | [] => Ok (real_productions, None)
        | p :: _ =>
          (* real_productions.append([p]): a dict has no append *)
          Raise AttributeError
        end
      else
        firsts ← comprehension (λ x, py_index x 0) (iter productions);
        let lefts : gset Item := list_to_set firsts in
        let lengths : gset nat := list_to_set (length <$> iter productions) in
        _ ← py_assert (bool_decide (size lengths = 1%nat));
        split_len ← from_option Ok (Raise KeyError) (set_pop lengths);
        real_productions ←
          (if bool_decide (split_len ≠ 1%nat) then
             _ ← py_assert (bool_decide (split_len = 2%nat));
             let prodlist := iter productions in
             x0 ← py_index prodlist 0;
             l0 ← py_index x0 0;
             let symbol := RPSlot (outside_symbol l0) (outside_nt_index l0) in
             production ← comprehension (λ x, py_index x 1) (iter productions);
             Ok (<[symbol := production]> real_productions)
           else Ok real_productions);
        pitem ← from_option Ok (Raise KeyError) (set_pop lefts);
        Ok (real_productions, Some (KItem pitem))
    end.

(** Lines 253-292: [while True]. *)
Fixpoint walk (fuel : nat) (chart : gmap Key (gset (list Item))) (pitem : Key)
    (real_productions : gmap RPKey (list Item)) : result (gmap RPKey (list Item)) :=
  match fuel with
  | O => OutOfFuel
  | S fuel =>
    '(real_productions, next) ← walk_step chart pitem real_productions;
    match next with
    | None => Ok real_productions
    | Some pitem => walk fuel chart pitem real_productions
    end
  end.

Definition key_closed (k : Key) : bool :=
  match k with
  | START => true
  | KItem item => closed item
  end.

(** Lines 244-299: the body of [for item in visit_items]. [key_closed] is
    the test [item == 'START' or item.closed]. *)
Definition regroup (fuel : nat) (chart : gmap Key (gset (list Item)))
    (cky : gmap Key (gmap RPKey (list Item))) (item : Key)
    : result (gmap Key (gmap RPKey (list Item))) :=
  if negb (key_closed item) then Ok cky
  else
    real_productions ← walk fuel chart item ∅;
    if bool_decide (real_productions ≠ ∅)
    then Ok (<[item := real_productions]> cky)
    else Ok cky.

(** [cky_chart]. The result, a [Chart] of [item.py], is used as a
    dictionary. *)
Definition cky_chart (fuel : nat) (chart : gmap Key (gset (list Item)))
    : result (gmap Key (gmap RPKey (list Item))) :=
  visit_items ← visit_loop fuel chart [START] ∅;
  for_loop (regroup fuel chart) ∅ (iter visit_items).

End Extraction.

(** ** The generators [parse_graphs] and [parse_strings] *)

(** What one call of [next] on a generator gives. *)
Inductive gen_event (A : Type) :=
  | Yield (a : A)
  | StopIteration
  | GenRaise (e : exn)
  | GenOutOfFuel.
Arguments Yield {A} a.
Arguments StopIteration {A}.
Arguments GenRaise {A} e.
Arguments GenOutOfFuel {A}.

(** A generator over an input iterator: not started yet, suspended at its
    [yield] with the rest of the iterator, or finished (after the loop ended
    or an exception left the body). *)
Inductive gen_state (I : Type) :=
  | NotStarted (inputs : list I)
  | Suspended (inputs : list I)
  | Finished.
Arguments NotStarted {I} inputs.
Arguments Suspended {I} inputs.
Arguments Finished {I}.

(** The names that the module [parser.py] binds at its top level: its
    imports, the class and the functions. Lines 222-229, which would define
    the three [make_*_filter_cache] functions, are comments. *)
Definition module_names : list string :=
  ["Tree"; "log"; "time"; "ddict"; "deque"; "itertools"; "re"; "math";
   "Hgraph"; "CfgItem"; "HergItem"; "CfgHergItem"; "Chart"; "Rule"; "Parser";
   "cky_chart"; "output_bolinas"; "output_carmel"; "output_tiburon";
   "output_cdec"; "strings_for_items"]%string.

(** Reading a global name. *)
Definition global_lookup (name : string) : result unit :=
  if bool_decide (name ∈ module_names) then Ok () else Raise NameError.

(** A call of [self.parse] with [n] arguments after [self]: the method is
    [parse(self, string, graph)]. *)
Definition parse_arity_check (n : nat) : result unit :=
  if bool_decide (n = 2%nat) then Ok () else Raise TypeError.

Section Generators.
Context `{SetOrder} `{ItemAlgebra}.

Definition event_of {A} (r : result A) : gen_event A :=
  match r with
  | Ok a => Yield a
  | Raise e => GenRaise e
  | OutOfFuel => GenOutOfFuel
  end.

(** Lines 33-36: one call of [next] on [parse_graphs(graph_iterator)]. *)
Definition parse_graphs_next (fuel : nat) (gr : Grammar) (g : gen_state Graph)
    : gen_event (gmap Key (gmap RPKey (list Item))) * gen_state Graph :=
  match g with
  | Finished => (StopIteration, Finished)
  | NotStarted inputs | Suspended inputs =>
    match inputs with
    | [] => (StopIteration, Finished)
    | graph :: inputs =>
      match (raw_chart ← parse fuel gr None (Some graph); cky_chart fuel raw_chart) with
      | Ok forest => (Yield forest, Suspended inputs)
      | r => (event_of r, Finished)
      end
    end
  end.

(** Lines 43-47: one call of [next] on [parse_strings(string_iterator)]. *)
Definition parse_strings_next (fuel : nat) (gr : Grammar) (g : gen_state (list Word))
    : gen_event (gmap Key (gmap RPKey (list Item))) * gen_state (list Word) :=
  let loop (inputs : list (list Word)) :=
    match inputs with
    | [] => (StopIteration, Finished)
    | string :: inputs =>
      (* self.parse(string, None, filter_cache) *)
      match (_ ← parse_arity_check 3;
             raw_chart ← parse fuel gr (Some string) None;
             cky_chart fuel raw_chart) with
      | Ok forest => (Yield forest, Suspended inputs)
      | r => (event_of r, Finished)
      end
    end in
  match g with
  | Finished => (StopIteration, Finished)
  | NotStarted inputs =>
    (* filter_cache = make_string_filter_cache() *)
    match global_lookup "make_string_filter_cache" with
    | Ok _ => loop inputs
    | Raise e => (GenRaise e, Finished)
    | OutOfFuel => (GenOutOfFuel, Finished)
    end
  | Suspended inputs => loop inputs
  end.

(** Calling [next] until the generator is finished, [n] times at most: the
    list of what it gave. *)
Fixpoint drain {I A} (next : gen_state I → gen_event A * gen_state I) (n : nat)
    (g : gen_state I) : list (gen_event A) :=
  match n with
  | O => []
  | S n =>
    let '(ev, g) := next g in
    match ev with
    | Yield _ => ev :: drain next n g
    | _ => [ev]
    end
  end.

End Generators.

(** ** A small item algebra *)

(** Modelled from the spec: [item.py], [rule.py] and [lib/hgraph] are not
    among the sources, so the theorems below hold for every [ItemAlgebra].
    The instance of this section only provides inputs on which they can be
    run. It follows the data model of the specification: a rule has an id, a
    left-hand symbol and a right-hand side of terminals and indexed
    nonterminal slots; a string item is a rule with the span [[i, j)]
    consumed so far, a graph item a rule with the edges matched so far, a
    synchronous item has both; an item is closed when its whole right-hand
    side is matched, and its outside descriptor is the next unmatched
    element. Node identities are left out. *)
Module Small.

Inductive rhs_elem :=
  | T (word : string)
  | NT (symbol : string) (index : Z).

Record rule := mkRule {
  rule_id : nat;
  symbol : string;
  rhs : list rhs_elem
}.

(** An edge [(source, label, target)]. *)
Definition edge : Type := nat * string * nat.

Record item := mkItem {
  item_rule : rule;
  dot : nat;
  span : option (Z * Z);
  matched : list edge
}.

#[global] Instance rhs_elem_eq_dec : EqDecision rhs_elem.
Proof. solve_decision. Defined.
#[global] Instance rhs_elem_countable : Countable rhs_elem.
Proof.
  refine (inj_countable'
            (λ e, match e with T w => inl w | NT s n => inr (s, n) end)
            (λ x, match x with inl w => T w | inr (s, n) => NT s n end) _).
  by intros [].
Defined.
#[global] Instance rule_eq_dec : EqDecision rule.
Proof. solve_decision. Defined.
#[global] Instance rule_countable : Countable rule.
Proof.
  refine (inj_countable' (λ r, (rule_id r, symbol r, rhs r))
                         (λ x, mkRule x.1.1 x.1.2 x.2) _).
  by intros [].
Defined.
#[global] Instance item_eq_dec : EqDecision item.
Proof. solve_decision. Defined.
#[global] Instance item_countable : Countable item.
Proof.
  refine (inj_countable' (λ x, (item_rule x, dot x, span x, matched x))
                         (λ x, mkItem x.1.1.1 x.1.1.2 x.1.2 x.2) _).
  by intros [].
Defined.

Definition outside (x : item) : option rhs_elem := rhs (item_rule x) !! dot x.

Definition is_closed (x : item) : bool :=
  bool_decide (dot x = length (rhs (item_rule x))).

Definition out_is_nonterminal (x : item) : bool :=
  match outside x with Some (NT _ _) => true | _ => false end.

Definition out_symbol (x : item) : string :=
  match outside x with Some (NT s _) => s | _ => "" end.

Definition out_index (x : item) : Z :=
  match outside x with Some (NT _ n) => n | _ => -1 end.

Definition out_terminal (x : item) : string :=
  match outside x with Some (T w) => w | _ => "" end.

Definition span_i (x : item) : Z := from_option fst (-1) (span x).
Definition span_j (x : item) : Z := from_option snd (-1) (span x).

(** The span grows to the right, one position at a time. *)
Definition can_take_word (x : item) (w : string) (index : nat) : bool :=
  bool_decide (outside x = Some (T w)) &&
  match span x with
  | None => true
  | Some (_, j) => bool_decide (j = Z.of_nat index)
  end.

Definition take_word (x : item) (w : string) (index : nat) : item :=
  mkItem (item_rule x) (S (dot x))
    (Some (from_option fst (Z.of_nat index) (span x), Z.of_nat index + 1))
    (matched x).

(** An edge is matched once. *)
Definition can_take_edge (x : item) (e : edge) : bool :=
  bool_decide (outside x = Some (T e.1.2)) && bool_decide (e ∉ matched x).

Definition take_edge (x : item) (e : edge) : item :=
  mkItem (item_rule x) (S (dot x)) (span x) (matched x ++ [e]).

(** A closed item of the needed symbol fills the slot when its span
    continues the span so far and its edges are new. *)
Definition can_fill (x o : item) : bool :=
  is_closed o && bool_decide (symbol (item_rule o) = out_symbol x) &&
  out_is_nonterminal x &&
  match span x, span o with
  | Some (_, j), Some (i, _) => bool_decide (j = i)
  | Some _, None => false
  | None, _ => true
  end &&
  forallb (λ e, bool_decide (e ∉ matched x)) (matched o).

Definition fill (x o : item) : item :=
  mkItem (item_rule x) (S (dot x))
    (match span x, span o with
     | Some (i, _), Some (_, j) => Some (i, j)
     | None, s => s
     | s, None => s
     end)
    (matched x ++ matched o).

#[global] Instance algebra : ItemAlgebra := {|
  Rule := rule;
  Item := item;
  Word := string;
  Edge := edge;
  Label := string;
  Graph := list edge;
  axiom := λ _ r _, mkItem r 0 None [];
  closed := is_closed;
  rule_symbol := λ x, symbol (item_rule x);
  outside_is_nonterminal := out_is_nonterminal;
  outside_symbol := out_symbol;
  outside_nt_index := out_index;
  outside_word := out_terminal;
  outside_edge := out_terminal;
  outside_word_is_nonterminal := out_is_nonterminal;
  outside_edge_is_nonterminal := out_is_nonterminal;
  can_complete := can_fill;
  complete := fill;
  cfg_can_shift := can_take_word;
  cfg_shift := take_word;
  item_i := span_i;
  item_j := span_j;
  herg_can_shift := can_take_edge;
  herg_shift := take_edge;
  shifted := λ x, list_to_set (matched x);
  can_shift_word := can_take_word;
  shift_word := take_word;
  can_shift_edge := can_take_edge;
  shift_edge := take_edge;
  cfg_item := λ x, x;
  herg_item := λ x, x;
  graph_bool := λ g, bool_decide (g ≠ []);
  triples := λ g _, g;
  edge_label := λ e, e.1.2
|}.

#[global] Existing Instance plain_order.

(** The grammar [S -> A B], [A -> C], [C -> "a"], [B -> "b"]. *)
Definition r_S : rule := mkRule 0 "S" [NT "A" 0; NT "B" 1].
Definition r_A : rule := mkRule 1 "A" [NT "C" 0].
Definition r_C : rule := mkRule 2 "C" [T "a"].
Definition r_B : rule := mkRule 3 "B" [T "b"].

Definition grammar_ab : Grammar :=
  {| rules := [r_S; r_A; r_C; r_B]; start_symbol := "S"; nodelabels := false |}.

(** The grammar with the single rule [S -> "a"]. *)
Definition r_a : rule := mkRule 0 "S" [T "a"].
Definition grammar_a : Grammar :=
  {| rules := [r_a]; start_symbol := "S"; nodelabels := false |}.

End Small.

(** ** Running the loop step by step *)

Section Steps.
Context `{SetOrder} `{ItemAlgebra}.

(** The state after [n] rounds of the [while queue] loop, or the final state
    when the queue empties earlier. *)
Fixpoint steps (n : nat) (env : Env) (st : State) : result State :=
  match n with
  | O => Ok st
  | S n =>
    match queue st with
    | [] => Ok st
    | item :: rest => st ← handle env item rest st; steps n env st
    end
  end.

Definition parse_steps (n : nat) (gr : Grammar) (string : option (list Word))
    (graph : option Graph) : result State :=
  steps n (make_env gr string graph) (init_state gr string graph).

(** The goal test as [handle] calls it. *)
Definition goal_test (env : Env) (item : Item) : bool :=
  successful_parse (grammar env) (input_string env) (input_graph env) item
    (string_size env) (graph_size env).

(** The three kinds of parse, by the truth values of the arguments. *)
Inductive Mode := StringParse | GraphParse | SynchronousParse | NoInput.

Definition mode_of (string : option (list Word)) (graph : option Graph) : Mode :=
  match string_bool string, graph_arg_bool graph with
  | true, true => SynchronousParse
  | true, false => StringParse
  | false, true => GraphParse
  | false, false => NoInput
  end.

(** The consumed span of [item] is as long as the input string. *)
Definition whole_string (string : option (list Word)) (item : Item) : Prop :=
  ∃ s, string = Some s ∧ item_j item - item_i item = Z.of_nat (length s).

(** [item] has matched as many edges as the input graph has. *)
Definition whole_graph (gr : Grammar) (graph : option Graph) (item : Item) : Prop :=
  ∃ g, graph = Some g ∧ size (shifted item) = length (triples g (nodelabels gr)).

(** Coverage of the entire input, in the words of the specification. *)
Definition covers_input (gr : Grammar) (string : option (list Word))
    (graph : option Graph) (item : Item) : Prop :=
  match mode_of string graph with
  | StringParse => whole_string string item
  | GraphParse => whole_graph gr graph item
  | SynchronousParse =>
    whole_string string (cfg_item item) ∧ whole_graph gr graph (herg_item item)
  | NoInput => False
  end.

End Steps.

(** ** Notions used to state the properties of the engine *)

Section EngineNotions.
Context `{SetOrder} `{ItemAlgebra}.
Implicit Types (st : State) (env : Env) (item x o n : Item)
  (axioms : list Item).

(** Everything that [st] has recorded, [st'] has recorded too. *)
Definition grows st st' : Prop :=
  visited st ⊆ visited st' ∧
  attempted st ⊆ attempted st' ∧
  (∀ k, dd_get (chart st) k ⊆ dd_get (chart st') k) ∧
  (∀ s, dd_get (nonterminal_lookup st) s ⊆ dd_get (nonterminal_lookup st') s) ∧
  (∀ s, dd_get (reverse_lookup st) s ⊆ dd_get (reverse_lookup st') s) ∧
  (success st = true → success st' = true) ∧
  can_complete_calls st `prefix_of` can_complete_calls st'.

(** The axioms that [parse] seeds (lines 106-109). *)
Definition axioms_of (gr : Grammar) (string : option (list Word))
    (graph : option Graph) : list Item :=
  (λ rule, axiom (axiom_class string graph) rule (nodelabels gr)) <$> rules gr.

(** [n] is one of the items that the shift branch makes of the open item
    [x], which waits for a terminal. *)
Definition shift_step env x n : Prop :=
  closed x = false ∧ outside_is_nonterminal x = false ∧
  ∃ new_items, shift_candidates env x = Ok new_items ∧ n ∈ new_items.

(** [n] is what the completion branch makes of the open item [x], which
    waits for a nonterminal, and the closed item [o] of that symbol. *)
Definition complete_step x o n : Prop :=
  closed x = false ∧ outside_is_nonterminal x = true ∧
  closed o = true ∧ rule_symbol o = outside_symbol x ∧
  can_complete x o = true ∧ n = complete x o.

(** The items that shifts and completions make of the axioms. *)
Inductive derivable env axioms : Item → Prop :=
  | derivable_axiom a : a ∈ axioms → derivable env axioms a
  | derivable_shift x n :
      derivable env axioms x → shift_step env x n → derivable env axioms n
  | derivable_complete x o n :
      derivable env axioms x → derivable env axioms o →
      complete_step x o n → derivable env axioms n.

(** A closed item does not wait for a nonterminal. The engine relies on it
    when it wakes items up: a closed item is never handled as a waiting
    one. *)
Definition closed_items_wait_for_nothing : Prop :=
  ∀ x, closed x = true → outside_is_nonterminal x = false.

End EngineNotions.

(** ** Notions used to state the properties of the extraction *)

Section ExtractionNotions.
Context `{SetOrder} `{ItemAlgebra}.

(** Keys that can be reached from the goal key through the antecedents of
    recorded productions. *)
Inductive reach (chart : gmap Key (gset (list Item))) : Key → Prop :=
  | reach_start : reach chart START
  | reach_antecedent k production citem :
      reach chart k →
      production ∈ dd_get chart k →
      citem ∈ production →
      reach chart (KItem citem).

(** The traversal as the specification words it: antecedents are pushed
    only for the goal key and for closed items. *)
Fixpoint visit_loop_closed_only (fuel : nat) (chart : gmap Key (gset (list Item)))
    (stack : list Key) (visit_items : gset Key) : result (gset Key) :=
  match stack with
  | [] => Ok visit_items
  | item :: stack =>
    match fuel with
    | O => OutOfFuel
    | S fuel =>
      if bool_decide (item ∈ visit_items)
      then visit_loop_closed_only fuel chart stack visit_items
      else visit_loop_closed_only fuel chart
             (if key_closed item
              then push_antecedents stack (iter (dd_get chart item))
              else stack)
             ({[item]} ∪ visit_items)
    end
  end.

(** The regrouped production map of a key is not empty. *)
Definition grouped_nonempty (fuel : nat) (chart : gmap Key (gset (list Item)))
    (k : Key) : Prop :=
  ∃ real_productions,
    walk fuel chart k ∅ = Ok real_productions ∧ real_productions ≠ ∅.

(** The key set of the pruned chart in the words of the specification: the
    goal key, and the closed items that the closed-only traversal reaches
    and that have a grouped production. *)
Definition specified_key (fuel : nat) (chart : gmap Key (gset (list Item)))
    (k : Key) : Prop :=
  k = START ∨
  ∃ visit_items,
    visit_loop_closed_only fuel chart [START] ∅ = Ok visit_items ∧
    k ∈ visit_items ∧ key_closed k = true ∧ grouped_nonempty fuel chart k.

(** All productions of a set have [n] antecedents. *)
Definition arity (n : nat) (productions : gset (list Item)) : Prop :=
  ∀ x, x ∈ productions → length x = n.

(** A pseudo-item whose productions reach the sanity check of lines
    273-285: an item with productions that is not a ['PARTIAL'] item. *)
Definition checked (chart : gmap Key (gset (list Item))) (pitem : Key) : Prop :=
  match pitem with
  | START => False
  | KItem item => dd_get chart pitem ≠ ∅ ∧ rule_symbol item ≠ "PARTIAL"%string
  end.


(** The key under which a first antecedent files its slot. *)
Definition slot_of (left : Item) : RPKey :=
  RPSlot (outside_symbol left) (outside_nt_index left).


End ExtractionNotions.

Section ExtractionFurtherNotions.
Context `{SetOrder} `{ItemAlgebra}.
Implicit Types (chart : gmap Key (gset (list Item))) (item : Item) (k : Key).

(** A chain of shifts: below the key, every pseudo-item has unary
    productions only, down to items without productions, in at most [d]
    steps. *)
Inductive unary_chain chart : nat → Key → Prop :=
  | unary_chain_end d k : dd_get chart k = ∅ → unary_chain chart d k
  | unary_chain_step d item :
      checked chart (KItem item) →
      arity 1 (dd_get chart (KItem item)) →
      (∀ x, [x] ∈ dd_get chart (KItem item) → unary_chain chart d (KItem x)) →
      unary_chain chart (S d) (KItem item).

(** The keys that occur as antecedents in the chart. *)
Definition antecedent_keys chart : gset Key :=
  ⋃ ((λ kv : Key * gset (list Item),
        ⋃ ((λ p : list Item, list_to_set (KItem <$> p)) <$> elements kv.2))
     <$> map_to_list chart).

(** The number of antecedents that the traversal pushes for a key. *)
Definition pushes chart k : nat := length (concat (iter (dd_get chart k))).

(** Enough rounds for the traversal: one for the goal key and one for each
    antecedent of each key that can be on the stack. *)
Definition traversal_bound chart : nat :=
  S (sum_list_with (pushes chart) (elements ({[START]} ∪ antecedent_keys chart))).

End ExtractionFurtherNotions.

(** ** Inputs on which the theorems are run *)

Module Inputs.
Import Small.

Definition item_S0 : item := mkItem r_S 0 None [].
Definition item_S1 : item := mkItem r_S 1 (Some (0, 1)) [].
Definition item_S2 : item := mkItem r_S 2 (Some (0, 2)) [].
Definition item_A0 : item := mkItem r_A 0 None [].
Definition item_A1 : item := mkItem r_A 1 (Some (0, 1)) [].
Definition item_C0 : item := mkItem r_C 0 None [].
Definition item_C1 : item := mkItem r_C 1 (Some (0, 1)) [].
Definition item_B0 : item := mkItem r_B 0 None [].
Definition item_B1 : item := mkItem r_B 1 (Some (1, 2)) [].

(** The raw chart of the string [a b] under [grammar_ab]. *)
Definition chart_ab : gmap Key (gset (list Item)) :=
  dd_add START [item_S2]
    (dd_add (KItem item_S2) [item_S1; item_B1]
      (dd_add (KItem item_S1) [item_S0; item_A1]
        (dd_add (KItem item_A1) [item_A0; item_C1]
          (dd_add (KItem item_C1) [item_C0]
            (dd_add (KItem item_B1) [item_B0] ∅))))).


(** A closed item of an intermediate rule ['PARTIAL' -> "a"], derived by one
    shift, as the goal. *)
Definition r_P : rule := mkRule 4 "PARTIAL" [T "a"].
Definition item_P0 : item := mkItem r_P 0 None [].
Definition item_P1 : item := mkItem r_P 1 (Some (0, 1)) [].

Definition grammar_partial : Grammar :=
  {| rules := [r_P]; start_symbol := "PARTIAL"; nodelabels := false |}.

Definition chart_partial : gmap Key (gset (list Item)) :=
  dd_add START [item_P1] (dd_add (KItem item_P1) [item_P0] ∅).

(** A chart in which the productions of [item_S2] differ in arity. *)
Definition chart_uneven : gmap Key (gset (list Item)) :=
  dd_add START [item_S2]
    (dd_add (KItem item_S2) [item_S1; item_B1]
      (dd_add (KItem item_S2) [item_S0] ∅)).

(** A chart with a production without antecedents. *)
Definition chart_nullary : gmap Key (gset (list Item)) :=
  dd_add START [item_C1] (dd_add (KItem item_C1) [] ∅).

End Inputs.

(** A chart in which [item_C1] is its own antecedent. *)
Definition chart_loop : gmap Key (gset (list Item)) :=
  dd_add (KItem Inputs.item_C1) [Inputs.item_C1] ∅.

(** A graph with the single edge [0 -a-> 1]. *)
Definition graph_a : list Small.edge := [(0, "a"%string, 1)%nat].

(** The run of [parse] on the string [a b] with [Small.grammar_ab], and the
    state after its first four rounds. *)
Definition ab_state : State :=
  result_get empty_state (parse_run 100 Small.grammar_ab (Some ["a"; "b"]%string) None).

Definition ab_state_4 : State :=
  result_get empty_state (parse_steps 4 Small.grammar_ab (Some ["a"; "b"]%string) None).

(** * Properties *)

(** ** Generalities *)

Lemma is_ok_get {A} (d : A) (r : result A) : is_ok r = true → r = Ok (result_get d r).
Proof. by destruct r. Qed.

Lemma ok_inj {A} (a b : A) : Ok a = Ok b → a = b.
Proof. by intros [= ->]. Qed.

Lemma bind_ok {A B} (f : A → result B) (m : result A) (b : B) :
  m ≫= f = Ok b → ∃ a, m = Ok a ∧ f a = Ok b.
Proof. destruct m; [eauto | done | done]. Qed.


Lemma foldl_invariant {A B} (P : A → Prop) (f : A → B → A) (l : list B) (a : A) :
  P a → (∀ a b, P a → b ∈ l → P (f a b)) → P (foldl f a l).
Proof.
  revert a. induction l as [|x l IH]; intros a Ha Hf; simpl; [done|].
  apply IH.
  - apply Hf; [done | left].
  - intros a' b Ha' Hb. apply Hf; [done | by right].
Qed.

Lemma for_loop_ok_inv {A S} (body : S → A → result S) (P : S → Prop) l s s' :
  for_loop body s l = Ok s' →
  P s →
  (∀ s x s', x ∈ l → P s → body s x = Ok s' → P s') →
  P s'.
Proof.
  revert s. induction l as [|x l IH]; intros s Hrun Hs Hbody; simpl in Hrun.
  - by inversion Hrun; subst.
  - apply bind_ok in Hrun as (s1 & H1 & H2).
    eapply IH; [exact H2 | | ].
    + eapply Hbody; [left | done | done].
    + intros s2 y s3 Hy. apply Hbody. by right.
Qed.


Section ddict_facts.
Context `{Countable K} `{Countable V}.
Implicit Types (d : gmap K (gset V)) (k : K) (v : V).

Lemma dd_get_empty k : dd_get (∅ : gmap K (gset V)) k = ∅.
Proof. unfold dd_get. by rewrite lookup_empty. Qed.

Lemma dd_get_add k v d k' :
  dd_get (dd_add k v d) k' =
  if decide (k = k') then {[v]} ∪ dd_get d k else dd_get d k'.
Proof.
  unfold dd_add. unfold dd_get at 1. rewrite lookup_insert.
  by destruct (decide (k = k')) as [->|].
Qed.

Lemma dd_get_add_ne k v d k' : k ≠ k' → dd_get (dd_add k v d) k' = dd_get d k'.
Proof. intros. rewrite dd_get_add. by rewrite decide_False. Qed.

Lemma elem_of_dd_get_add k v d v' :
  v' ∈ dd_get (dd_add k v d) k ↔ v' = v ∨ v' ∈ dd_get d k.
Proof.
  rewrite dd_get_add, decide_True by done.
  rewrite elem_of_union, elem_of_singleton. tauto.
Qed.

End ddict_facts.

Section order_facts.
Context `{SetOrder} `{Countable A}.

Lemma iter_perm (s : gset A) : iter s ≡ₚ elements s.
Proof. apply set_iter_perm. Qed.

Lemma elem_of_iter (s : gset A) (x : A) : x ∈ iter s ↔ x ∈ s.
Proof. by rewrite iter_perm, elem_of_elements. Qed.



Lemma iter_singleton (x : A) : iter ({[x]} : gset A) = [x].
Proof. apply Permutation_singleton_r. rewrite iter_perm. by rewrite elements_singleton. Qed.


Lemma set_pop_elem_of (s : gset A) (x : A) : set_pop s = Some x → x ∈ s.
Proof.
  unfold set_pop. intros Hx. apply elem_of_iter.
  destruct (iter s); simplify_eq/=. left.
Qed.

Lemma set_pop_is_Some (s : gset A) : s ≠ ∅ → is_Some (set_pop s).
Proof.
  intros Hs. unfold set_pop. destruct (iter s) eqn:E; [|by eexists].
  exfalso. apply Hs. apply set_eq. intros x.
  rewrite <- elem_of_iter, E. set_solver.
Qed.

End order_facts.

(** ** The agenda engine *)

Section EngineFacts.
Context `{SetOrder} `{ItemAlgebra}.
Implicit Types (st : State) (env : Env) (item : Item).

(** What a round of the loop can change of the goal entry and of [visited]. *)
Definition goal_part st : gset Item * gset (list Item) :=
  (visited st, dd_get (chart st) START).

(** What a round of the loop can change of the memo and of the call log. *)
Definition memo_part st : gset (Item * Item) * list (Item * Item) :=
  (attempted st, can_complete_calls st).

Lemma record_item_goal_part production st nitem :
  goal_part (record_item production st nitem) = goal_part st.
Proof.
  unfold record_item, goal_part.
  destruct (_ && _); simpl; by rewrite dd_get_add_ne.
Qed.

Lemma record_item_memo_part production st nitem :
  memo_part (record_item production st nitem) = memo_part st.
Proof. unfold record_item, memo_part. by destruct (_ && _). Qed.

Lemma wake_up_goal_part st ritem : goal_part (wake_up st ritem) = goal_part st.
Proof. unfold wake_up. by case_bool_decide. Qed.

Lemma wake_up_memo_part st ritem : memo_part (wake_up st ritem) = memo_part st.
Proof. unfold wake_up. by case_bool_decide. Qed.

Lemma try_complete_goal_part item st oitem :
  goal_part (try_complete item st oitem) = goal_part st.
Proof.
  unfold try_complete. case_bool_decide; [done|]. simpl.
  destruct (negb (can_complete item oitem)); [done|].
  by rewrite record_item_goal_part.
Qed.

Lemma foldl_part {A B} (part : State → A) (f : State → B → State) l st :
  (∀ st x, part (f st x) = part st) → part (foldl f st l) = part st.
Proof.
  intros Hf. apply (foldl_invariant (λ s, part s = part st)); [done|].
  intros s x Hs _. by rewrite Hf.
Qed.

Lemma seed_goal_part cls nl st rule : goal_part (seed cls nl st rule) = goal_part st.
Proof. unfold seed. by destruct (outside_is_nonterminal _). Qed.

Lemma seed_memo_part cls nl st rule : memo_part (seed cls nl st rule) = memo_part st.
Proof. unfold seed. by destruct (outside_is_nonterminal _). Qed.

Lemma init_state_goal_part gr string graph :
  goal_part (init_state gr string graph) = (∅, ∅).
Proof. unfold init_state. rewrite foldl_part; [done|]. apply seed_goal_part. Qed.

Lemma init_state_memo_part gr string graph :
  memo_part (init_state gr string graph) = (∅, []).
Proof. unfold init_state. rewrite foldl_part; [done|]. apply seed_memo_part. Qed.

(** The queue after seeding holds the axioms in the order of the rules, and
    all of them are pending. *)
Lemma foldl_seed_queue cls nl rs st :
  queue (foldl (seed cls nl) st rs) = queue st ++ ((λ r, axiom cls r nl) <$> rs) ∧
  ∀ x, x ∈ pending (foldl (seed cls nl) st rs) ↔
       x ∈ pending st ∨ x ∈ ((λ r, axiom cls r nl) <$> rs).
Proof.
  revert st. induction rs as [|r rs IH]; intros st; simpl.
  - rewrite app_nil_r. split; [done|]. set_solver.
  - destruct (IH (seed cls nl st r)) as [Hq Hp]. split.
    + rewrite Hq. unfold seed. destruct (outside_is_nonterminal _); simpl;
        by rewrite <- app_assoc.
    + intros x. rewrite Hp. unfold seed.
      destruct (outside_is_nonterminal _); simpl; set_solver.
Qed.

(** A property that every round keeps holds after any number of rounds. *)
Lemma steps_invariant (P : State → Prop) env :
  (∀ item rest st st',
     queue st = item :: rest → handle env item rest st = Ok st' → P st → P st') →
  ∀ n st st', steps n env st = Ok st' → P st → P st'.
Proof.
  intros Hstep n. induction n as [|n IH]; intros st st' Hrun Hst; simpl in Hrun.
  - by inversion Hrun; subst.
  - destruct (queue st) as [|item rest] eqn:Hq; [by inversion Hrun; subst|].
    apply bind_ok in Hrun as (st1 & H1 & H2). eauto.
Qed.

(** A run of the loop that ends is a run of as many rounds. *)
Lemma parse_loop_steps fuel env st st' :
  parse_loop fuel env st = Ok st' → steps fuel env st = Ok st' ∧ queue st' = [].
Proof.
  revert st. induction fuel as [|fuel IH]; intros st Hrun; simpl in *.
  - destruct (queue st) eqn:Hq; [|done]. by inversion Hrun; subst.
  - destruct (queue st) as [|item rest] eqn:Hq; [by inversion Hrun; subst|].
    apply bind_ok in Hrun as (st1 & H1 & H2). rewrite H1. simpl. by apply IH.
Qed.

Lemma parse_run_steps fuel gr string graph st :
  parse_run fuel gr string graph = Ok st →
  parse_steps fuel gr string graph = Ok st ∧ queue st = [].
Proof. apply parse_loop_steps. Qed.


(** *** The goal entry *)

(** The goal entry holds the 1-tuples of the closed items handled so far
    that pass the goal test. *)
Definition goal_inv env st : Prop :=
  ∀ p, p ∈ dd_get (chart st) START ↔
       ∃ item, p = [item] ∧ item ∈ visited st ∧ closed item = true ∧
               goal_test env item = true.

Lemma goal_inv_part env st st' :
  goal_part st' = goal_part st → goal_inv env st → goal_inv env st'.
Proof. unfold goal_inv, goal_part. intros [= -> ->]. done. Qed.

Lemma handle_goal_inv env item rest st st' :
  handle env item rest st = Ok st' → goal_inv env st → goal_inv env st'.
Proof.
  unfold handle. case_bool_decide as Hpend; [done|].
  intros Hrun Hinv. destruct (closed item) eqn:Hclosed.
  - inversion Hrun as [Hst']; clear Hrun Hst'.
    eapply goal_inv_part; [apply foldl_part, wake_up_goal_part|].
    fold (goal_test env item). destruct (goal_test env item) eqn:Hgoal.
    + intros p. simpl. rewrite elem_of_dd_get_add, (Hinv p). split.
      * intros [->|(x & -> & Hx & ? & ?)]; [exists item | exists x]; set_solver.
      * intros (x & -> & Hx & ? & ?).
        apply elem_of_union in Hx as [->%elem_of_singleton|Hx]; [by left|].
        right. by exists x.
    + intros p. simpl. rewrite (Hinv p). split.
      * intros (x & -> & Hx & ? & ?). exists x. set_solver.
      * intros (x & -> & Hx & ? & ?).
        apply elem_of_union in Hx as [->%elem_of_singleton|Hx]; [congruence|].
        by exists x.
  - assert (goal_inv env (pop_item item rest st)) as Hpop.
    { intros p. simpl. rewrite (Hinv p). split.
      - intros (x & -> & Hx & ? & ?). exists x. set_solver.
      - intros (x & -> & Hx & ? & ?).
        apply elem_of_union in Hx as [->%elem_of_singleton|Hx]; [congruence|].
        by exists x. }
    destruct (outside_is_nonterminal item).
    + inversion Hrun as [Hst']; clear Hrun Hst'.
      eapply goal_inv_part; [apply foldl_part, try_complete_goal_part|]. done.
    + apply bind_ok in Hrun as (new_items & _ & [= <-]).
      eapply goal_inv_part; [apply foldl_part, record_item_goal_part|]. done.
Qed.

Lemma steps_goal_inv n gr string graph st :
  parse_steps n gr string graph = Ok st → goal_inv (make_env gr string graph) st.
Proof.
  intros Hrun. eapply (steps_invariant (goal_inv _)); [|exact Hrun|].
  - intros item rest st1 st2 _. apply handle_goal_inv.
  - intros p. pose proof (init_state_goal_part gr string graph) as [= Hv Hc].
    rewrite Hc, Hv. split; [set_solver|]. intros (x & _ & Hx & _). set_solver.
Qed.

(** The goal test of [successful_parse], read off the code, is the goal
    test of the specification. *)
Lemma goal_test_spec gr string graph item :
  goal_test (make_env gr string graph) item = true ↔
  rule_symbol item = start_symbol gr ∧ covers_input gr string graph item.
Proof.
  unfold goal_test, successful_parse, covers_input, mode_of,
    whole_string, whole_graph. simpl.
  case_bool_decide as Hsym; simpl; [|split; [done | by intros [? _]]].
  destruct (string_bool string) eqn:Hs, (graph_arg_bool graph) eqn:Hg; simpl.
  - destruct string as [[|w ws]|], graph as [g|]; simplify_eq/=. rewrite Hg.
    rewrite andb_true_iff, !bool_decide_eq_true. split.
    + intros [Hj Hsz]. split; [done|]. split; [by eexists | exists g].
      split; [done | lia].
    + intros (_ & (s & [= <-] & Hj) & (g' & [= <-] & Hsz)). split; [done | lia].
  - destruct string as [[|w ws]|]; simplify_eq/=.
    rewrite bool_decide_eq_true. split.
    + intros Hj. split; [done|]. by eexists.
    + by intros (_ & s & [= <-] & Hj).
  - destruct graph as [g|]; simplify_eq/=. rewrite Hg.
    rewrite bool_decide_eq_true. split.
    + intros Hsz. split; [done|]. exists g. split; [done | lia].
    + intros (_ & g' & [= <-] & Hsz). lia.
  - rewrite bool_decide_eq_true. split; [|by intros [_ []]].
    destruct graph as [g|]; simpl in *; [rewrite Hg|]; lia.
Qed.

(** *** The memo of attempted pairs *)

(** [can_complete] was called on exactly the pairs in [attempted], once on
    each. *)
Definition memo_inv st : Prop :=
  NoDup (can_complete_calls st) ∧
  ∀ p, p ∈ can_complete_calls st ↔ p ∈ attempted st.

Lemma memo_inv_part st st' : memo_part st' = memo_part st → memo_inv st → memo_inv st'.
Proof. unfold memo_inv, memo_part. intros [= -> ->]. done. Qed.

Lemma try_complete_memo_inv item st oitem :
  memo_inv st → memo_inv (try_complete item st oitem).
Proof.
  intros [Hnd Hmem]. unfold try_complete. case_bool_decide as Hatt; [done|].
  simpl.
  assert (memo_inv (call_can_complete item oitem (attempt item oitem st)).2) as Hinv.
  { split; simpl.
    - apply NoDup_app. split; [done|]. split; [|apply NoDup_singleton].
      intros p Hp ->%list_elem_of_singleton. by apply Hatt, Hmem.
    - intros p. rewrite elem_of_app, list_elem_of_singleton, Hmem. set_solver. }
  destruct (negb (can_complete item oitem)); [done|].
  eapply memo_inv_part; [apply record_item_memo_part | done].
Qed.

Lemma handle_memo_inv env item rest st st' :
  handle env item rest st = Ok st' → memo_inv st → memo_inv st'.
Proof.
  unfold handle. case_bool_decide as Hpend; [done|].
  intros Hrun Hinv. destruct (closed item).
  - inversion Hrun as [Hst']; clear Hrun Hst'.
    eapply memo_inv_part; [apply foldl_part, wake_up_memo_part|].
    by destruct (successful_parse _ _ _ _ _ _).
  - destruct (outside_is_nonterminal item).
    + inversion Hrun as [Hst']; clear Hrun Hst'.
      apply (foldl_invariant memo_inv); [done|].
      intros s x Hs _. by apply try_complete_memo_inv.
    + apply bind_ok in Hrun as (new_items & _ & [= <-]).
      eapply memo_inv_part; [apply foldl_part, record_item_memo_part | done].
Qed.

Lemma steps_memo_inv n gr string graph st :
  parse_steps n gr string graph = Ok st → memo_inv st.
Proof.
  intros Hrun. eapply (steps_invariant memo_inv); [|exact Hrun|].
  - intros item rest st1 st2 _. apply handle_memo_inv.
  - pose proof (init_state_memo_part gr string graph) as [= Ha Hc].
    unfold memo_inv. rewrite Ha, Hc. split; [apply NoDup_nil_2 | set_solver].
Qed.

End EngineFacts.

Section EngineClaims.
Context `{SetOrder} `{ItemAlgebra}.


(** C10. In the raw chart, at every moment of a parse call and at its
    return, every production under the goal key ['START'] is a 1-tuple, and
    its only antecedent is a closed item that the loop has already
    handled. *)
Theorem goal_productions_are_closed_singletons n gr string graph st :
  parse_steps n gr string graph = Ok st →
  ∀ p, p ∈ dd_get (chart st) START →
       length p = 1%nat ∧
       ∃ item, p = [item] ∧ closed item = true ∧ item ∈ visited st.
Proof.
  intros Hrun p Hp.
  apply (steps_goal_inv _ _ _ _ _ Hrun p) in Hp as (item & -> & Hv & Hc & _).
  split; [done|]. by exists item.
Qed.

(** C3. Within one parse call [can_complete] is called at most once on
    every ordered pair of an item and a candidate, whatever the number of
    times the items are enqueued again: the log of the calls never has a
    pair twice. The memo enforces it: a pair is in [attempted] when the call
    is made, and the calls made are exactly the pairs of the memo. *)
Theorem can_complete_called_at_most_once n gr string graph st :
  parse_steps n gr string graph = Ok st →
  NoDup (can_complete_calls st) ∧
  ∀ item oitem,
    (item, oitem) ∈ can_complete_calls st ↔ (item, oitem) ∈ attempted st.
Proof.
  intros Hrun. destruct (steps_memo_inv _ _ _ _ _ Hrun) as [Hnd Hmem].
  split; [done|]. intros item oitem. apply Hmem.
Qed.

(** A round that handles an open item waiting for a terminal, in a call in
    which neither [string] nor [graph] is true, fails the assertion of line
    182. *)
Lemma handle_no_input_asserts env item rest st :
  item ∈ pending st →
  closed item = false →
  outside_is_nonterminal item = false →
  string_bool (input_string env) = false →
  graph_arg_bool (input_graph env) = false →
  handle env item rest st = Raise AssertionError.
Proof.
  intros Hpend Hc Hnt Hs Hg. unfold handle.
  rewrite bool_decide_eq_false_2 by (intros Hn; by apply Hn).
  rewrite Hc, Hnt. unfold shift_candidates. by rewrite Hs, Hg.
Qed.

(** With the empty string and no graph, the first round already fails when
    the first rule's axiom is open and waits for a terminal. *)
Lemma first_axiom_asserts gr rule rs fuel :
  rules gr = rule :: rs →
  closed (axiom HergItemC rule (nodelabels gr)) = false →
  outside_is_nonterminal (axiom HergItemC rule (nodelabels gr)) = false →
  parse (S fuel) gr (Some []) None = Raise AssertionError.
Proof.
  intros Hrules Hc Hnt. unfold parse, parse_run. simpl.
  destruct (foldl_seed_queue (axiom_class (Some []) None) (nodelabels gr)
              (rules gr) empty_state) as [Hq Hp].
  fold (init_state gr (Some []) None) in Hq, Hp.
  rewrite Hq, Hrules. simpl.
  rewrite handle_no_input_asserts; try done.
  apply Hp. right. rewrite Hrules. left.
Qed.

(** C8. A call of [parse] on the empty string and no graph does not run as
    a string parse: the axiom class is [HergItem] and both sizes are [-1].
    As soon as the first rule's axiom is open and waits for a terminal, the
    call ends in the [AssertionError] of line 182. *)
Theorem parse_empty_string_asserts gr rule rs :
  rules gr = rule :: rs →
  closed (axiom HergItemC rule (nodelabels gr)) = false →
  outside_is_nonterminal (axiom HergItemC rule (nodelabels gr)) = false →
  axiom_class (Some []) None = HergItemC ∧
  string_size_of (Some []) = -1 ∧
  ∀ fuel, parse (S fuel) gr (Some []) None = Raise AssertionError.
Proof.
  intros Hrules Hc Hnt. split; [done|]. split; [done|]. intros fuel.
  by eapply first_axiom_asserts.
Qed.

End EngineClaims.


Lemma goal_productions_are_closed_singletons_witness :
  let st := result_get empty_state
              (parse_steps 100 Small.grammar_ab (Some ["a"; "b"]%string) None) in
  parse_steps 100 Small.grammar_ab (Some ["a"; "b"]%string) None = Ok st ∧
  ∀ p, p ∈ dd_get (chart st) START →
       length p = 1%nat ∧
       ∃ item, p = [item] ∧ closed item = true ∧ item ∈ visited st.
Proof.
  intros st.
  assert (parse_steps 100 Small.grammar_ab (Some ["a"; "b"]%string) None = Ok st)
    as Hrun by (apply is_ok_get; vm_compute; reflexivity).
  split; [exact Hrun|].
  exact (goal_productions_are_closed_singletons 100 Small.grammar_ab _ None st Hrun).
Defined.

Lemma can_complete_called_at_most_once_witness :
  let st := result_get empty_state
              (parse_steps 100 Small.grammar_ab (Some ["a"; "b"]%string) None) in
  parse_steps 100 Small.grammar_ab (Some ["a"; "b"]%string) None = Ok st ∧
  length (can_complete_calls st) = 3%nat ∧
  NoDup (can_complete_calls st) ∧
  ∀ item oitem,
    (item, oitem) ∈ can_complete_calls st ↔ (item, oitem) ∈ attempted st.
Proof.
  intros st.
  assert (parse_steps 100 Small.grammar_ab (Some ["a"; "b"]%string) None = Ok st)
    as Hrun by (apply is_ok_get; vm_compute; reflexivity).
  split; [exact Hrun|]. split; [vm_compute; reflexivity|].
  exact (can_complete_called_at_most_once 100 Small.grammar_ab _ None st Hrun).
Defined.

Lemma parse_empty_string_asserts_witness :
  axiom_class (Some []) None = HergItemC ∧
  string_size_of (Some []) = -1 ∧
  ∀ fuel, parse (S fuel) Small.grammar_a (Some []) None = Raise AssertionError.
Proof.
  apply (parse_empty_string_asserts Small.grammar_a Small.r_a []); reflexivity.
Defined.

(** ** Forest extraction *)

Section ExtractionFacts.
Context `{SetOrder} `{ItemAlgebra}.
#[local] Arguments walk_step : simpl never.
Implicit Types (chart : gmap Key (gset (list Item))) (item : Item) (k : Key)
  (rp : gmap RPKey (list Item)).

Lemma comprehension_ok_inv {A B} (f : A → result B) l ys :
  comprehension f l = Ok ys → Forall2 (λ x y, f x = Ok y) l ys.
Proof.
  revert ys. induction l as [|x l IH]; intros ys Hrun; simpl in Hrun.
  - inversion Hrun. constructor.
  - apply bind_ok in Hrun as (y & Hy & Hrun).
    apply bind_ok in Hrun as (ys' & Hys & [= <-]). constructor; eauto.
Qed.

Lemma comprehension_ok {A B} (f : A → result B) (g : A → B) l :
  (∀ x, x ∈ l → f x = Ok (g x)) → comprehension f l = Ok (g <$> l).
Proof.
  induction l as [|x l IH]; intros Hf; simpl; [done|].
  rewrite Hf by left. simpl. rewrite IH; [done|].
  intros y Hy. apply Hf. by right.
Qed.


(** A walk that starts at a key without productions ends at once. *)
Lemma walk_step_no_productions chart pitem rp :
  dd_get chart pitem = ∅ → walk_step chart pitem rp = Ok (rp, None).
Proof. intros He. unfold walk_step. by rewrite He, size_empty. Qed.

(** The goal key with productions files them under ['START']. *)
Lemma walk_step_start chart rp :
  dd_get chart START ≠ ∅ →
  walk_step chart START rp =
  Ok (<[RPStart := concat (iter (dd_get chart START))]> rp, None).
Proof.
  intros Hne. unfold walk_step.
  rewrite bool_decide_eq_false_2; [done|]. by intros ?%size_empty_inv%leibniz_equiv.
Qed.



End ExtractionFacts.

Section NoGoal.
Context `{SetOrder} `{ItemAlgebra}.


End NoGoal.



(** ** One round of the walk *)

Section WalkStep.
Context `{SetOrder} `{ItemAlgebra}.
Implicit Types (chart : gmap Key (gset (list Item))) (item : Item) (k : Key)
  (rp : gmap RPKey (list Item)) (productions : gset (list Item)).
#[local] Arguments walk_step : simpl never.

Lemma size_nonempty productions : productions ≠ ∅ → size productions ≠ 0%nat.
Proof. by intros Hne ?%size_empty_inv%leibniz_equiv. Qed.

Lemma iter_nonempty productions :
  productions ≠ ∅ → ∃ x xs, iter productions = x :: xs ∧ x ∈ productions.
Proof.
  intros Hne. destruct (iter productions) as [|x xs] eqn:E.
  - exfalso. apply Hne, set_eq. intros x. rewrite <- elem_of_iter, E. set_solver.
  - exists x, xs. split; [done|]. apply elem_of_iter. rewrite E. left.
Qed.

(** The set [lengths] of line 274. *)
Definition lengths_of productions : gset nat :=
  list_to_set (length <$> iter productions).

Lemma elem_of_lengths_of productions n :
  n ∈ lengths_of productions ↔ ∃ x, x ∈ productions ∧ length x = n.
Proof.
  unfold lengths_of. rewrite elem_of_list_to_set, list_elem_of_fmap.
  split; intros (x & Hx1 & Hx2); exists x.
  - by apply elem_of_iter in Hx2.
  - by rewrite elem_of_iter.
Qed.

Lemma lengths_of_arity productions n :
  productions ≠ ∅ → arity n productions → lengths_of productions = {[n]}.
Proof.
  intros Hne Har. apply set_eq. intros m.
  rewrite elem_of_lengths_of, elem_of_singleton. split.
  - intros (x & Hx & <-). by apply Har.
  - intros ->. destruct (iter_nonempty _ Hne) as (x & _ & _ & Hx).
    exists x. split; [done|]. by apply Har.
Qed.


Lemma set_pop_singleton `{Countable A} (x : A) : set_pop ({[x]} : gset A) = Some x.
Proof. unfold set_pop. by rewrite iter_singleton. Qed.

(** The body of [walk_step] for a pseudo-item that reaches the sanity
    check. *)
Lemma walk_step_checked chart item rp :
  checked chart (KItem item) →
  walk_step chart (KItem item) rp =
  (firsts ← comprehension (λ x, py_index x 0) (iter (dd_get chart (KItem item)));
   _ ← py_assert (bool_decide (size (lengths_of (dd_get chart (KItem item))) = 1%nat));
   split_len ← from_option Ok (Raise KeyError)
                 (set_pop (lengths_of (dd_get chart (KItem item))));
   real_productions ←
     (if bool_decide (split_len ≠ 1%nat) then
        _ ← py_assert (bool_decide (split_len = 2%nat));
        x0 ← py_index (iter (dd_get chart (KItem item))) 0;
        l0 ← py_index x0 0;
        production ← comprehension (λ x, py_index x 1)
                       (iter (dd_get chart (KItem item)));
        Ok (<[slot_of l0 := production]> rp)
      else Ok rp);
   pitem ← from_option Ok (Raise KeyError)
             (set_pop (list_to_set firsts : gset Item));
   Ok (real_productions, Some (KItem pitem))).
Proof.
  intros [Hne Hsym]. unfold walk_step.
  rewrite bool_decide_eq_false_2 by by apply size_nonempty.
  rewrite (bool_decide_eq_false_2 _ Hsym). reflexivity.
Qed.


Lemma firsts_ok productions :
  [] ∉ productions →
  ∃ firsts,
    comprehension (λ x, py_index x 0) (iter productions) = Ok firsts ∧
    ∀ l, l ∈ firsts ↔ ∃ xs, l :: xs ∈ productions.
Proof.
  intros Hnil.
  assert (∀ l : list (list Item), (∀ x, x ∈ l → x ≠ []) →
            ∃ firsts, comprehension (λ x, py_index x 0) l = Ok firsts ∧
                      ∀ a, a ∈ firsts ↔ ∃ xs, a :: xs ∈ l) as Hgen.
  { induction l as [|x l IH]; intros Hl.
    - exists []. split; [done|]. intros a.
      split; [by intros ?%elem_of_nil | by intros (? & ?%elem_of_nil)].
    - destruct IH as (firsts & Hrun & Hmem).
      { intros y Hy. apply Hl. by right. }
      destruct x as [|a0 xs0]; [by destruct (Hl []); [left|]|].
      exists (a0 :: firsts). simpl. rewrite Hrun. split; [done|].
      intros a. rewrite elem_of_cons, Hmem. split.
      + intros [->|(xs & Hxs)]; [exists xs0; left | exists xs; by right].
      + intros (xs & [[= -> ->]|Hxs]%elem_of_cons); [by left | right; eauto]. }
  destruct (Hgen (iter productions)) as (firsts & Hrun & Hmem).
  { intros x Hx%elem_of_iter ->. done. }
  exists firsts. split; [done|]. intros l. rewrite Hmem.
  by setoid_rewrite elem_of_iter.
Qed.



End WalkStep.

Section WalkClaims.
Context `{SetOrder} `{ItemAlgebra}.
Implicit Types (chart : gmap Key (gset (list Item))) (item : Item) (k : Key)
  (rp : gmap RPKey (list Item)) (productions : gset (list Item)).
#[local] Arguments walk_step : simpl never.

(** The walk raises what its round raises. *)
Lemma walk_raise fuel chart pitem rp e :
  walk_step chart pitem rp = Raise e → walk (S fuel) chart pitem rp = Raise e.
Proof. intros Hstep. simpl. by rewrite Hstep. Qed.

(** C7. At a ['PARTIAL'] item with productions the code asserts that there
    is exactly one. With one production that has an antecedent, the round
    then calls [append] on the dictionary [real_productions] and raises
    [AttributeError]; so does every longer walk from the item, and the
    regrouping of the item when it is closed. Nothing is re-exposed. *)
Theorem partial_item_is_not_re_exposed chart item rp :
  rule_symbol item = "PARTIAL"%string →
  dd_get chart (KItem item) ≠ ∅ →
  (size (dd_get chart (KItem item)) ≠ 1%nat →
   walk_step chart (KItem item) rp = Raise AssertionError) ∧
  (∀ p ps, dd_get chart (KItem item) = {[p :: ps]} →
     walk_step chart (KItem item) rp = Raise AttributeError ∧
     ∀ fuel cky, closed item = true →
       regroup (S fuel) chart cky (KItem item) = Raise AttributeError).
Proof.
  intros Hsym Hne. split.
  - intros Hsize. unfold walk_step.
    rewrite bool_decide_eq_false_2 by by apply size_nonempty.
    rewrite (bool_decide_eq_true_2 _ Hsym).
    by rewrite (bool_decide_eq_false_2 _ Hsize).
  - intros p ps Hd.
    assert (∀ rp', walk_step chart (KItem item) rp' = Raise AttributeError) as Hstep.
    { intros rp'. unfold walk_step. rewrite Hd, size_singleton. simpl.
      rewrite (bool_decide_eq_true_2 _ Hsym). simpl.
      by rewrite iter_singleton. }
    split; [done|]. intros fuel cky Hclosed. unfold regroup. simpl.
    by rewrite Hclosed, Hstep.
Qed.





End WalkClaims.

Lemma partial_item_is_not_re_exposed_witness :
  rule_symbol Inputs.item_P1 = "PARTIAL"%string ∧
  dd_get Inputs.chart_partial (KItem Inputs.item_P1) = {[ [Inputs.item_P0] ]} ∧
  walk_step Inputs.chart_partial (KItem Inputs.item_P1) ∅ = Raise AttributeError ∧
  regroup 1 Inputs.chart_partial ∅ (KItem Inputs.item_P1) = Raise AttributeError ∧
  cky_chart 100 Inputs.chart_partial = Raise AttributeError ∧
  parse 100 Inputs.grammar_partial (Some ["a"]%string) None = Ok Inputs.chart_partial.
Proof.
  assert (dd_get Inputs.chart_partial (KItem Inputs.item_P1) = {[ [Inputs.item_P0] ]})
    as Hd by compute_done.
  assert (dd_get Inputs.chart_partial (KItem Inputs.item_P1) ≠ ∅)
    as Hne by compute_done.
  destruct (partial_item_is_not_re_exposed Inputs.chart_partial Inputs.item_P1 ∅
              eq_refl Hne) as [_ Hone].
  destruct (Hone Inputs.item_P0 [] Hd) as [Hstep Hregroup].
  split; [reflexivity|]. split; [exact Hd|]. split; [exact Hstep|].
  split; [exact (Hregroup 0%nat ∅ eq_refl)|].
  split; compute_done.
Defined.


(** The two ways in which the sanity check of the walk ends an extraction. *)
Example uneven_arity_aborts :
  cky_chart 100 Inputs.chart_uneven = Raise AssertionError ∧
  cky_chart 100 Inputs.chart_nullary = Raise IndexError.
Proof. split; compute_done. Qed.



(** ** The traversal and the key set of the pruned chart *)

Section Pruning.
Context `{SetOrder} `{ItemAlgebra}.
Implicit Types (chart : gmap Key (gset (list Item))) (item : Item) (k : Key)
  (stack : list Key) (visit_items : gset Key)
  (cky : gmap Key (gmap RPKey (list Item))).
#[local] Arguments walk_step : simpl never.

Lemma elem_of_push_production stack (production : list Item) k :
  k ∈ foldl (λ stack citem, KItem citem :: stack) stack production ↔
  k ∈ stack ∨ ∃ citem, citem ∈ production ∧ k = KItem citem.
Proof.
  revert stack. induction production as [|c production IH]; intros stack; simpl.
  - split; [by left | by intros [?|(? & ?%elem_of_nil & _)]].
  - rewrite IH, elem_of_cons. split.
    + intros [[->|?]|(c' & ? & ->)].
      * right. exists c. split; [left | done].
      * by left.
      * right. exists c'. split; [by right | done].
    + intros [?|(c' & [->|?]%elem_of_cons & ->)].
      * left. by right.
      * left. by left.
      * right. by exists c'.
Qed.

Lemma elem_of_push_antecedents stack (productions : list (list Item)) k :
  k ∈ push_antecedents stack productions ↔
  k ∈ stack ∨
  ∃ production citem,
    production ∈ productions ∧ citem ∈ production ∧ k = KItem citem.
Proof.
  unfold push_antecedents. revert stack.
  induction productions as [|p productions IH]; intros stack; simpl.
  - split; [by left | by intros [?|(? & ? & ?%elem_of_nil & _)]].
  - rewrite IH, elem_of_push_production. split.
    + intros [[?|(c & ? & ->)]|(p' & c & ? & ? & ->)].
      * by left.
      * right. exists p, c. split; [left | done].
      * right. exists p', c. split; [by right | done].
    + intros [?|(p' & c & [->|?]%elem_of_cons & ? & ->)].
      * by left; left.
      * left; right. by exists c.
      * right. by exists p', c.
Qed.

(** The antecedents pushed for a key. *)
Lemma elem_of_pushed chart stack k k' :
  k' ∈ push_antecedents stack (iter (dd_get chart k)) ↔
  k' ∈ stack ∨
  ∃ production citem,
    production ∈ dd_get chart k ∧ citem ∈ production ∧ k' = KItem citem.
Proof. rewrite elem_of_push_antecedents. by setoid_rewrite elem_of_iter. Qed.

Lemma visit_loop_sound fuel chart stack visit_items out :
  visit_loop fuel chart stack visit_items = Ok out →
  (∀ k, k ∈ stack → reach chart k) →
  (∀ k, k ∈ visit_items → reach chart k) →
  ∀ k, k ∈ out → reach chart k.
Proof.
  revert stack visit_items.
  induction fuel as [|fuel IH]; intros stack visit_items Hrun Hstack Hvisit.
  - destruct stack; simpl in Hrun; [|done]. by inversion Hrun; subst.
  - destruct stack as [|top stack]; simpl in Hrun; [by inversion Hrun; subst|].
    case_bool_decide as Hin.
    + eapply IH; [exact Hrun | | done]. intros k Hk. apply Hstack. by right.
    + eapply IH; [exact Hrun | |].
      * intros k [Hk|(p & c & Hp & Hc & ->)]%elem_of_pushed.
        -- apply Hstack. by right.
        -- eapply reach_antecedent; [apply Hstack; left | done | done].
      * intros k [->%elem_of_singleton|Hk]%elem_of_union;
          [apply Hstack; left | by apply Hvisit].
Qed.

(** Everything visited has its antecedents visited or on the stack. *)
Definition frontier_inv chart stack visit_items : Prop :=
  (START ∈ visit_items ∨ START ∈ stack) ∧
  ∀ k production citem,
    k ∈ visit_items → production ∈ dd_get chart k → citem ∈ production →
    KItem citem ∈ visit_items ∨ KItem citem ∈ stack.

Lemma visit_loop_complete fuel chart stack visit_items out :
  visit_loop fuel chart stack visit_items = Ok out →
  frontier_inv chart stack visit_items →
  frontier_inv chart [] out.
Proof.
  revert stack visit_items.
  induction fuel as [|fuel IH]; intros stack visit_items Hrun Hinv.
  - destruct stack; simpl in Hrun; [|done]. by inversion Hrun; subst.
  - destruct stack as [|top stack]; simpl in Hrun; [by inversion Hrun; subst|].
    destruct Hinv as [Hstart Hclosed]. case_bool_decide as Hin.
    + eapply IH; [exact Hrun|]. split.
      * destruct Hstart as [?|[->|?]%elem_of_cons];
          [by left | by left | by right].
      * intros k p c Hk Hp Hc.
        destruct (Hclosed k p c Hk Hp Hc) as [?|[Heq|?]%elem_of_cons];
          [by left | left; by rewrite Heq | by right].
    + eapply IH; [exact Hrun|]. split.
      * destruct Hstart as [?|[->|?]%elem_of_cons].
        -- left. set_solver.
        -- left. set_solver.
        -- right. apply elem_of_pushed. by left.
      * intros k p c [->%elem_of_singleton|Hk]%elem_of_union Hp Hc.
        -- right. apply elem_of_pushed. right. by exists p, c.
        -- destruct (Hclosed k p c Hk Hp Hc) as [?|[->|?]%elem_of_cons].
           ++ left. set_solver.
           ++ left. set_solver.
           ++ right. apply elem_of_pushed. by left.
Qed.

(** The traversal of lines 232-241 visits the keys that can be reached from
    the goal key, through closed and open items alike. *)
Lemma visit_loop_reach fuel chart visit_items :
  visit_loop fuel chart [START] ∅ = Ok visit_items →
  ∀ k, k ∈ visit_items ↔ reach chart k.
Proof.
  intros Hrun k. split.
  - eapply visit_loop_sound; [exact Hrun | |set_solver].
    intros k' ->%list_elem_of_singleton. constructor.
  - destruct (visit_loop_complete _ _ _ _ _ Hrun) as [Hstart Hclosed].
    { split; [right; left | set_solver]. }
    induction 1 as [|k' p c _ IH Hp Hc].
    + by destruct Hstart as [?|?%elem_of_nil].
    + by destruct (Hclosed k' p c IH Hp Hc) as [?|?%elem_of_nil].
Qed.

(** What the regrouping loop puts under a key. *)
Definition entry_of fuel chart (l : list Key) k (rp : gmap RPKey (list Item)) : Prop :=
  k ∈ l ∧ key_closed k = true ∧ walk fuel chart k ∅ = Ok rp ∧ rp ≠ ∅.

Lemma regroup_ok fuel chart cky k cky' :
  regroup fuel chart cky k = Ok cky' →
  (key_closed k = false ∧ cky' = cky) ∨
  (key_closed k = true ∧
   ∃ rp, walk fuel chart k ∅ = Ok rp ∧
         ((rp ≠ ∅ ∧ cky' = <[k := rp]> cky) ∨ (rp = ∅ ∧ cky' = cky))).
Proof.
  unfold regroup. destruct (key_closed k); simpl.
  - intros (rp & Hwalk & Hins)%bind_ok. right. split; [done|]. exists rp.
    split; [done|]. case_bool_decide as Hne; simplify_eq; [by left | by right].
  - intros [= ->]. by left.
Qed.

Lemma regroup_loop_other fuel chart l cky out k :
  for_loop (regroup fuel chart) cky l = Ok out → k ∉ l → out !! k = cky !! k.
Proof.
  revert cky. induction l as [|x l IH]; intros cky Hrun Hk; simpl in Hrun.
  - by inversion Hrun; subst.
  - apply bind_ok in Hrun as (cky1 & Hre & Hrun).
    apply not_elem_of_cons in Hk as [Hne Hk]. rewrite (IH _ Hrun Hk).
    apply regroup_ok in Hre
      as [[_ ->]|(_ & rp & _ & [[_ ->]|[_ ->]])]; try done.
    by rewrite lookup_insert_ne.
Qed.

Lemma regroup_loop_entry fuel chart l cky out k rp :
  for_loop (regroup fuel chart) cky l = Ok out →
  entry_of fuel chart l k rp → out !! k = Some rp.
Proof.
  revert cky. induction l as [|x l IH]; intros cky Hrun (Hk & Hc & Hw & Hne).
  - by apply elem_of_nil in Hk.
  - simpl in Hrun. apply bind_ok in Hrun as (cky1 & Hre & Hrun).
    destruct (decide (k ∈ l)) as [Hin|Hnin]; [by eapply IH|].
    apply elem_of_cons in Hk as [->|?]; [|done].
    rewrite (regroup_loop_other _ _ _ _ _ _ Hrun Hnin).
    apply regroup_ok in Hre as [[? _]|(_ & rp' & Hw' & Hcase)]; [congruence|].
    rewrite Hw in Hw'. injection Hw' as <-.
    destruct Hcase as [[_ ->]|[? _]]; [|done]. by rewrite lookup_insert_eq.
Qed.

Lemma regroup_loop_sound fuel chart l cky out k rp :
  for_loop (regroup fuel chart) cky l = Ok out →
  out !! k = Some rp → entry_of fuel chart l k rp ∨ cky !! k = Some rp.
Proof.
  revert cky. induction l as [|x l IH]; intros cky Hrun Hout; simpl in Hrun.
  - inversion Hrun; subst. by right.
  - apply bind_ok in Hrun as (cky1 & Hre & Hrun).
    destruct (IH _ Hrun Hout) as [(Hk & Hrest)|Hcky1].
    { left. split; [by right | done]. }
    apply regroup_ok in Hre as [[_ ->]|(Hc & rp' & Hw & [[Hne ->]|[_ ->]])];
      [by right | | by right].
    destruct (decide (x = k)) as [->|Hxk].
    + rewrite lookup_insert_eq in Hcky1. injection Hcky1 as ->.
      left. split; [left | done].
    + rewrite lookup_insert_ne in Hcky1 by done. by right.
Qed.

(** C4, amended. When [cky_chart] returns, the keys of the pruned chart are
    exactly the keys that satisfy three conditions: the stack traversal
    from the goal visited them, and it visits what can be reached from the
    goal key through the antecedents of the productions of every key on the
    way, closed or not; they are the goal key or a closed item; and the walk
    from them gave at least one grouped production, which then is their
    entry. So an open item is never a key, a key whose regrouped map is
    empty is dropped, and the goal key is a key only when it has a
    production. *)
Theorem pruned_chart_keys fuel chart out :
  cky_chart fuel chart = Ok out →
  ∃ visit_items,
    visit_loop fuel chart [START] ∅ = Ok visit_items ∧
    (∀ k, k ∈ visit_items ↔ reach chart k) ∧
    (∀ k rp, out !! k = Some rp ↔
             k ∈ visit_items ∧ key_closed k = true ∧
             walk fuel chart k ∅ = Ok rp ∧ rp ≠ ∅) ∧
    (∀ k, k ∈ dom out ↔
          k ∈ visit_items ∧ key_closed k = true ∧ grouped_nonempty fuel chart k) ∧
    (∀ item, KItem item ∈ dom out → closed item = true) ∧
    (START ∈ dom out ↔ dd_get chart START ≠ ∅).
Proof.
  intros Hcky. unfold cky_chart in Hcky.
  apply bind_ok in Hcky as (visit_items & Hvisit & Hloop).
  exists visit_items. split; [done|]. split; [by apply (visit_loop_reach fuel)|].
  assert (∀ k rp, out !! k = Some rp ↔
                  k ∈ visit_items ∧ key_closed k = true ∧
                  walk fuel chart k ∅ = Ok rp ∧ rp ≠ ∅) as Hentry.
  { intros k rp. split.
    - intros Hout.
      destruct (regroup_loop_sound _ _ _ _ _ _ _ Hloop Hout)
        as [(Hk%elem_of_iter & ?)|Hempty]; [done|].
      by rewrite lookup_empty in Hempty.
    - intros (Hk & Hrest). eapply regroup_loop_entry; [exact Hloop|].
      split; [by apply elem_of_iter | done]. }
  assert (∀ k, k ∈ dom out ↔
               k ∈ visit_items ∧ key_closed k = true ∧ grouped_nonempty fuel chart k)
    as Hdom.
  { intros k. rewrite elem_of_dom. unfold is_Some, grouped_nonempty.
    setoid_rewrite Hentry. naive_solver. }
  split; [done|]. split; [done|]. split.
  - intros item (_ & Hc & _)%Hdom. done.
  - rewrite Hdom. destruct fuel as [|fuel]; [done|]. split.
    + intros (_ & _ & rp & Hwalk & Hne) Hempty. simpl in Hwalk.
      rewrite walk_step_no_productions in Hwalk by done. by simplify_eq/=.
    + intros Hne. split; [|split; [done|]].
      * apply (visit_loop_reach _ _ _ Hvisit). constructor.
      * eexists. simpl. rewrite walk_step_start by done. simpl.
        split; [done|]. apply insert_non_empty.
Qed.

End Pruning.

(** The raw charts of [Small.grammar_ab] and [Inputs.grammar_partial] are
    the charts written out in [Inputs]. *)
Example parse_gives_written_charts :
  parse 100 Small.grammar_ab (Some ["a"; "b"]%string) None = Ok Inputs.chart_ab ∧
  parse 100 Inputs.grammar_partial (Some ["a"]%string) None = Ok Inputs.chart_partial.
Proof. split; compute_done. Qed.

Lemma pruned_chart_keys_witness :
  let out := result_get ∅ (cky_chart 100 Inputs.chart_ab) in
  cky_chart 100 Inputs.chart_ab = Ok out ∧
  dom out = {[ START; KItem Inputs.item_S2; KItem Inputs.item_A1 ]} ∧
  ∃ visit_items,
    visit_loop 100 Inputs.chart_ab [START] ∅ = Ok visit_items ∧
    (∀ k, k ∈ visit_items ↔ reach Inputs.chart_ab k) ∧
    (∀ k rp, out !! k = Some rp ↔
             k ∈ visit_items ∧ key_closed k = true ∧
             walk 100 Inputs.chart_ab k ∅ = Ok rp ∧ rp ≠ ∅) ∧
    (∀ k, k ∈ dom out ↔
          k ∈ visit_items ∧ key_closed k = true ∧
          grouped_nonempty 100 Inputs.chart_ab k) ∧
    (∀ item, KItem item ∈ dom out → closed item = true) ∧
    (START ∈ dom out ↔ dd_get Inputs.chart_ab START ≠ ∅).
Proof.
  intros out.
  assert (cky_chart 100 Inputs.chart_ab = Ok out) as Hrun
    by (apply is_ok_get; vm_compute; reflexivity).
  split; [exact Hrun|]. split; [compute_done|].
  exact (pruned_chart_keys 100 Inputs.chart_ab out Hrun).
Defined.

(** C4 as stated fails on the raw chart of [a b]: the closed item [item_A1]
    is an antecedent of the open item [item_S1] only. The traversal of the
    code visits it and it is a key of the pruned chart; a traversal that
    pushes antecedents for the goal key and closed items only never visits
    it. *)
Lemma closed_item_behind_open_item_is_kept :
  let out := result_get ∅ (cky_chart 100 Inputs.chart_ab) in
  let closed_only :=
    result_get ∅ (visit_loop_closed_only 100 Inputs.chart_ab [START] ∅) in
  cky_chart 100 Inputs.chart_ab = Ok out ∧
  visit_loop_closed_only 100 Inputs.chart_ab [START] ∅ = Ok closed_only ∧
  closed Inputs.item_S1 = false ∧
  dd_get Inputs.chart_ab (KItem Inputs.item_S1) =
    {[ [Inputs.item_S0; Inputs.item_A1] ]} ∧
  KItem Inputs.item_A1 ∈ dom out ∧
  (KItem Inputs.item_A1 ∉ closed_only) ∧
  ¬ (∀ k, k ∈ dom out ↔ specified_key 100 Inputs.chart_ab k).
Proof.
  intros out closed_only.
  assert (visit_loop_closed_only 100 Inputs.chart_ab [START] ∅ = Ok closed_only)
    as Hvisit by (apply is_ok_get; vm_compute; reflexivity).
  assert (KItem Inputs.item_A1 ∈ dom out) as Hin by compute_done.
  assert (KItem Inputs.item_A1 ∉ closed_only) as Hout by compute_done.
  split; [apply is_ok_get; vm_compute; reflexivity|].
  split; [exact Hvisit|]. split; [reflexivity|]. split; [compute_done|].
  split; [exact Hin|]. split; [exact Hout|].
  intros Hall. apply Hall in Hin as [Hstart|(v & Hv & Hk & _)]; [discriminate Hstart|].
  rewrite Hvisit in Hv. apply ok_inj in Hv. rewrite <- Hv in Hk. exact (Hout Hk).
Qed.

(** ** The generators *)

Section GeneratorFacts.
Context `{SetOrder} `{ItemAlgebra}.

(** [parse_graphs] yields, for the next graph of the iterator, the pruned
    chart of its raw chart, and keeps the rest of the iterator for the next
    call. *)
Lemma parse_graphs_next_yields fuel gr graph rest raw_chart forest :
  parse fuel gr None (Some graph) = Ok raw_chart →
  cky_chart fuel raw_chart = Ok forest →
  parse_graphs_next fuel gr (NotStarted (graph :: rest)) = (Yield forest, Suspended rest) ∧
  parse_graphs_next fuel gr (Suspended (graph :: rest)) = (Yield forest, Suspended rest).
Proof. intros Hparse Hcky. simpl. rewrite Hparse. simpl. by rewrite Hcky. Qed.

Lemma parse_graphs_next_stops fuel gr :
  parse_graphs_next fuel gr (NotStarted []) = (StopIteration, Finished) ∧
  parse_graphs_next fuel gr (Suspended []) = (StopIteration, Finished).
Proof. done. Qed.

(** One forest per graph, in the order of the graphs. *)
Lemma parse_graphs_in_order fuel gr graphs forests :
  Forall2 (λ graph forest,
             ∃ raw_chart, parse fuel gr None (Some graph) = Ok raw_chart ∧
                          cky_chart fuel raw_chart = Ok forest)
          graphs forests →
  drain (parse_graphs_next fuel gr) (S (length graphs)) (NotStarted graphs) =
    (Yield <$> forests) ++ [StopIteration] ∧
  drain (parse_graphs_next fuel gr) (S (length graphs)) (Suspended graphs) =
    (Yield <$> forests) ++ [StopIteration].
Proof.
  intros Hall.
  assert (drain (parse_graphs_next fuel gr) (S (length graphs)) (Suspended graphs) =
          (Yield <$> forests) ++ [StopIteration]) as Hsusp.
  { induction Hall as [|graph forest graphs forests (raw & Hparse & Hcky) _ IH].
    - done.
    - destruct (parse_graphs_next_yields fuel gr graph graphs raw forest Hparse Hcky)
        as [_ Hs].
      change (drain (parse_graphs_next fuel gr) (S (length (graph :: graphs)))
                (Suspended (graph :: graphs)))
        with (let '(ev, g) := parse_graphs_next fuel gr (Suspended (graph :: graphs)) in
              match ev with
              | Yield _ => ev :: drain (parse_graphs_next fuel gr) (S (length graphs)) g
              | _ => [ev]
              end).
      rewrite Hs, IH. done. }
  split; [|done]. rewrite <- Hsusp. by destruct graphs.
Qed.

(** C9. The first call of [next] on [parse_strings(string_iterator)] reads
    the global name [make_string_filter_cache], which the module does not
    define, and raises [NameError]: the generator yields no forest, whatever
    the strings are. If the name were defined, the call of [parse] with
    three arguments would raise [TypeError]. *)
Theorem parse_strings_raises_name_error fuel gr strings :
  parse_strings_next fuel gr (NotStarted strings) = (GenRaise NameError, Finished) ∧
  (∀ n, drain (parse_strings_next fuel gr) (S n) (NotStarted strings)
        = [GenRaise NameError]) ∧
  (∀ string rest,
     parse_strings_next fuel gr (Suspended (string :: rest))
     = (GenRaise TypeError, Finished)).
Proof. done. Qed.

End GeneratorFacts.

(** On the one-string iterator [["a"]] and the grammar [S -> "a"]:
    [parse_strings] raises, though the string has a parse, whose forest
    [cky_chart] extracts. *)
Example parse_strings_on_one_string :
  drain (parse_strings_next 100 Small.grammar_a) 5 (NotStarted [["a"]%string])
  = [GenRaise NameError] ∧
  is_ok (raw_chart ← parse 100 Small.grammar_a (Some ["a"]%string) None;
         cky_chart 100 raw_chart) = true.
Proof. split; [reflexivity | vm_compute; reflexivity]. Qed.

(** * Further properties of the engine *)

(** ** The terminal lookups *)

Section Lookups.
Context `{SetOrder} `{ItemAlgebra}.

Lemma foldl_dd_add_elem `{Countable K} `{Countable V} {A} (key : A → K) (val : A → V)
    (l : list A) (d : gmap K (gset V)) k v :
  v ∈ dd_get (foldl (λ d a, dd_add (key a) (val a) d) d l) k ↔
  v ∈ dd_get d k ∨ ∃ a, a ∈ l ∧ key a = k ∧ val a = v.
Proof.
  revert d. induction l as [|a l IH]; intros d; simpl.
  - split; [by left | by intros [?|(? & ?%elem_of_nil & _)]].
  - rewrite IH. rewrite dd_get_add. split.
    + intros [Hv|(a' & Ha' & Hk & Hv)].
      * destruct (decide (key a = k)) as [<-|Hne]; [|by left].
        apply elem_of_union in Hv as [->%elem_of_singleton|Hv]; [|by left].
        right. exists a. split; [left | done].
      * right. exists a'. split; [by right | done].
    + intros [Hv|(a' & [->|Ha']%elem_of_cons & Hk & Hv)].
      * left. destruct (decide (key a = k)) as [<-|Hne]; [|done].
        apply elem_of_union. by right.
      * left. rewrite decide_True by done. subst v. set_solver.
      * right. by exists a'.
Qed.

Lemma elem_of_word_lookup (string : option (list Word)) (w : Word) (i : nat) :
  i ∈ dd_get (word_lookup_of string) w ↔ ∃ s, string = Some s ∧ s !! i = Some w.
Proof.
  unfold word_lookup_of. destruct string as [[|w0 ws]|].
  - rewrite dd_get_empty. split; [set_solver | by intros (s & [= <-] & ?)].
  - rewrite (foldl_dd_add_elem (λ iw : nat * Word, iw.2) (λ iw, iw.1)).
    rewrite dd_get_empty. split.
    + intros [?|([i' w'] & Hin & <- & <-)]; [set_solver|].
      apply elem_of_lookup_imap in Hin as (j & y & [= -> ->] & Hj). eauto.
    + intros (s & [= <-] & Hi). right. exists (i, w). split; [|done].
      apply elem_of_lookup_imap. eauto.
  - rewrite dd_get_empty. split; [set_solver | by intros (s & ? & _)].
Qed.

(** The word table of lines 98-101 holds, under each word, exactly the
    positions of the string at which the word stands; without a string, or
    with the empty one, it holds nothing. *)
Theorem word_lookup_positions (string : option (list Word)) (w : Word) (i : nat) :
  i ∈ dd_get (word_lookup_of string) w ↔ ∃ s, string = Some s ∧ s !! i = Some w.
Proof. apply elem_of_word_lookup. Qed.

Lemma elem_of_edge_lookup (gr : Grammar) (graph : option Graph) (lbl : Label)
    (e : Edge) :
  e ∈ dd_get (edge_lookup_of gr graph) lbl ↔
  ∃ g, graph = Some g ∧ graph_bool g = true ∧
       e ∈ triples g (nodelabels gr) ∧ edge_label e = lbl.
Proof.
  unfold edge_lookup_of. destruct graph as [g|].
  - destruct (graph_bool g) eqn:Hg.
    + rewrite (foldl_dd_add_elem edge_label (λ e, e)), dd_get_empty. split.
      * intros [?|(e' & Hin & <- & <-)]; [set_solver|]. by exists g.
      * intros (g' & [= <-] & _ & Hin & <-). right. by exists e.
    + rewrite dd_get_empty. split; [set_solver|].
      intros (g' & [= <-] & ? & _). congruence.
  - rewrite dd_get_empty. split; [set_solver | by intros (g & ? & _)].
Qed.


Lemma elem_of_omap_if {A B} (c : A → bool) (f : A → B) (l : list A) (y : B) :
  y ∈ omap (λ a, if c a then Some (f a) else None) l ↔
  ∃ a, a ∈ l ∧ c a = true ∧ y = f a.
Proof.
  rewrite list_elem_of_omap. split.
  - intros (a & Ha & Hy). exists a. destruct (c a); by simplify_eq.
  - intros (a & Ha & Hc & ->). exists a. by rewrite Hc.
Qed.

(** In a string parse the shift of lines 178-180 never raises, and gives
    exactly the items [item.shift(word, index)] for the positions [index] of
    the string that hold the outside word of the item and pass
    [can_shift]. *)
Theorem string_shift_candidates gr (s : list Word) (graph : option Graph) item :
  s ≠ [] → graph_arg_bool graph = false →
  ∃ new_items,
    shift_candidates (make_env gr (Some s) graph) item = Ok new_items ∧
    ∀ nitem, nitem ∈ new_items ↔
      ∃ index, s !! index = Some (outside_word item) ∧
               cfg_can_shift item (outside_word item) index = true ∧
               nitem = cfg_shift item (outside_word item) index.
Proof.
  intros Hs Hg. unfold shift_candidates.
  assert (string_bool (input_string (make_env gr (Some s) graph)) = true) as ->
    by by destruct s.
  assert (graph_arg_bool (input_graph (make_env gr (Some s) graph)) = false) as ->
    by done.
  cbn [andb]. cbv iota. eexists. split; [done|]. intros nitem.
  rewrite (elem_of_omap_if (λ index, cfg_can_shift item (outside_word item) index)
             (λ index, cfg_shift item (outside_word item) index)).
  setoid_rewrite elem_of_iter.
  change (word_terminal_lookup (make_env gr (Some s) graph))
    with (word_lookup_of (Some s)).
  setoid_rewrite elem_of_word_lookup.
  split.
  - intros (index & (s' & [= <-] & Hi) & Hc & ->). eauto.
  - intros (index & Hi & Hc & ->). exists index. eauto.
Qed.

(** In a graph parse the shift of lines 182-185 never raises, and gives
    exactly the items [item.shift(edge)] for the triples of the graph that
    carry the outside edge label of the item and pass [can_shift]. *)
Theorem graph_shift_candidates gr (string : option (list Word)) (g : Graph) item :
  string_bool string = false → graph_bool g = true →
  ∃ new_items,
    shift_candidates (make_env gr string (Some g)) item = Ok new_items ∧
    ∀ nitem, nitem ∈ new_items ↔
      ∃ edge, edge ∈ triples g (nodelabels gr) ∧
              edge_label edge = outside_edge item ∧
              herg_can_shift item edge = true ∧
              nitem = herg_shift item edge.
Proof.
  intros Hs Hg. unfold shift_candidates.
  assert (string_bool (input_string (make_env gr string (Some g))) = false) as ->
    by done.
  assert (graph_arg_bool (input_graph (make_env gr string (Some g))) = true) as ->
    by done.
  cbn [andb]. cbv iota. unfold py_assert. cbn [mbind result_mbind result_bind].
  eexists. split; [done|]. intros nitem.
  rewrite (elem_of_omap_if (λ edge, herg_can_shift item edge)
             (λ edge, herg_shift item edge)).
  setoid_rewrite elem_of_iter.
  change (edge_terminal_lookup (make_env gr string (Some g)))
    with (edge_lookup_of gr (Some g)).
  setoid_rewrite elem_of_edge_lookup.
  split.
  - intros (edge & (g' & [= <-] & _ & Hin & Hl) & Hc & ->). eauto.
  - intros (edge & Hin & Hl & Hc & ->). exists edge. split; [|done]. by exists g.
Qed.

(** In a synchronous parse (lines 167-176) a terminal word goes first: an
    item whose outside word is a terminal gets its word shifts and no edge
    shift; an item whose outside word is a nonterminal gets the shifts of
    its outside edge, and the assertion of line 173 raises when the outside
    edge is a nonterminal too. *)
Theorem synchronous_shift_candidates gr (s : list Word) (g : Graph) item :
  s ≠ [] → graph_bool g = true →
  let env := make_env gr (Some s) (Some g) in
  (outside_word_is_nonterminal item = false →
   ∃ new_items,
     shift_candidates env item = Ok new_items ∧
     ∀ nitem, nitem ∈ new_items ↔
       ∃ index, s !! index = Some (outside_word item) ∧
                can_shift_word item (outside_word item) index = true ∧
                nitem = shift_word item (outside_word item) index) ∧
  (outside_word_is_nonterminal item = true →
   outside_edge_is_nonterminal item = true →
   shift_candidates env item = Raise AssertionError) ∧
  (outside_word_is_nonterminal item = true →
   outside_edge_is_nonterminal item = false →
   ∃ new_items,
     shift_candidates env item = Ok new_items ∧
     ∀ nitem, nitem ∈ new_items ↔
       ∃ edge, edge ∈ triples g (nodelabels gr) ∧
               edge_label edge = outside_edge item ∧
               can_shift_edge item edge = true ∧
               nitem = shift_edge item edge).
Proof.
  intros Hs Hg env. unfold shift_candidates.
  assert (string_bool (input_string env) = true) as -> by by destruct s.
  assert (graph_arg_bool (input_graph env) = true) as -> by done.
  cbn [andb]. cbv iota. split; [|split].
  - intros ->. cbn [negb]. cbv iota. eexists. split; [done|]. intros nitem.
    rewrite (elem_of_omap_if (λ index, can_shift_word item (outside_word item) index)
               (λ index, shift_word item (outside_word item) index)).
    setoid_rewrite elem_of_iter.
    change (word_terminal_lookup env) with (word_lookup_of (Some s)).
    setoid_rewrite elem_of_word_lookup.
    split.
    + intros (index & (s' & [= <-] & Hi) & Hc & ->). eauto.
    + intros (index & Hi & Hc & ->). exists index. eauto.
  - by intros -> ->.
  - intros -> ->. cbn [negb]. cbv iota.
    unfold py_assert. cbn [mbind result_mbind result_bind].
    eexists. split; [done|]. intros nitem.
    rewrite (elem_of_omap_if (λ edge, can_shift_edge item edge)
               (λ edge, shift_edge item edge)).
    setoid_rewrite elem_of_iter.
    change (edge_terminal_lookup env) with (edge_lookup_of gr (Some g)).
    setoid_rewrite elem_of_edge_lookup.
    split.
    + intros (edge & (g' & [= <-] & _ & Hin & Hl) & Hc & ->). eauto.
    + intros (edge & Hin & Hl & Hc & ->). exists edge. split; [|done]. by exists g.
Qed.

End Lookups.

(** ** What a round adds *)

Section Growth.
Context `{SetOrder} `{ItemAlgebra}.
Implicit Types (st : State) (env : Env) (item : Item).

Lemma grows_refl st : grows st st.
Proof. by repeat split. Qed.

Lemma grows_trans st1 st2 st3 : grows st1 st2 → grows st2 st3 → grows st1 st3.
Proof.
  intros (Hv & Ha & Hc & Hn & Hr & Hs & Hl) (Hv' & Ha' & Hc' & Hn' & Hr' & Hs' & Hl').
  split; [by etrans|]. split; [by etrans|].
  split; [intros k; etrans; [apply Hc | apply Hc']|].
  split; [intros k; etrans; [apply Hn | apply Hn']|].
  split; [intros k; etrans; [apply Hr | apply Hr']|].
  split; [auto | by etrans].
Qed.

Lemma dd_add_subseteq `{Countable K} `{Countable V} (k k' : K) (v : V)
    (d : gmap K (gset V)) :
  dd_get d k' ⊆ dd_get (dd_add k v d) k'.
Proof. rewrite dd_get_add. destruct (decide (k = k')) as [->|]; set_solver. Qed.

Lemma grows_chart_add k production st : grows st (chart_add k production st).
Proof. repeat split; try done. intros k'. apply dd_add_subseteq. Qed.

Lemma grows_enqueue x st : grows st (enqueue x st).
Proof. by repeat split. Qed.

Lemma grows_record_item production st nitem :
  grows st (record_item production st nitem).
Proof.
  unfold record_item. destruct (_ && _).
  - eapply grows_trans; [apply grows_chart_add | apply grows_enqueue].
  - apply grows_chart_add.
Qed.

Lemma grows_wake_up st ritem : grows st (wake_up st ritem).
Proof. unfold wake_up. case_bool_decide; [apply grows_enqueue | apply grows_refl]. Qed.

Lemma grows_try_complete item st oitem : grows st (try_complete item st oitem).
Proof.
  unfold try_complete. case_bool_decide; [apply grows_refl|]. simpl.
  assert (grows st (call_can_complete item oitem (attempt item oitem st)).2) as Hg.
  { repeat split; try done; simpl; [set_solver | by apply prefix_app_r]. }
  destruct (negb (can_complete item oitem)); [done|].
  eapply grows_trans; [exact Hg | apply grows_record_item].
Qed.

Lemma grows_foldl {B} (f : State → B → State) (l : list B) st :
  (∀ st x, grows st (f st x)) → grows st (foldl f st l).
Proof.
  intros Hf. apply (foldl_invariant (grows st)); [apply grows_refl|].
  intros s x Hs _. eapply grows_trans; [exact Hs | apply Hf].
Qed.

Lemma grows_handle env item rest st st' :
  handle env item rest st = Ok st' → grows st st'.
Proof.
  unfold handle. case_bool_decide; [done|]. intros Hrun.
  assert (grows st (pop_item item rest st)) as Hpop.
  { repeat split; try done. simpl. set_solver. }
  destruct (closed item).
  - inversion Hrun as [Hst']; clear Hrun Hst'.
    eapply grows_trans; [|apply grows_foldl, grows_wake_up].
    eapply grows_trans; [exact Hpop|].
    assert (∀ s, grows s (add_nonterminal (rule_symbol item) item s)) as Hadd.
    { intros s. repeat split; try done. intros k. apply dd_add_subseteq. }
    destruct (successful_parse _ _ _ _ _ _); [|apply Hadd].
    eapply grows_trans; [|apply Hadd].
    eapply grows_trans; [apply grows_chart_add|].
    unfold grows. simpl. by repeat split.
  - destruct (outside_is_nonterminal item).
    + inversion Hrun as [Hst']; clear Hrun Hst'.
      eapply grows_trans; [|apply grows_foldl, grows_try_complete].
      eapply grows_trans; [exact Hpop|].
      repeat split; try done. intros k. apply dd_add_subseteq.
    + apply bind_ok in Hrun as (new_items & _ & [= <-]).
      eapply grows_trans; [exact Hpop | apply grows_foldl, grows_record_item].
Qed.

Lemma steps_add n m env st :
  steps (n + m) env st = steps n env st ≫= steps m env.
Proof.
  revert st. induction n as [|n IH]; intros st; [done|].
  cbn [Nat.add steps]. destruct (queue st) as [|item rest] eqn:Hq.
  - simpl. destruct m; simpl; by rewrite ?Hq.
  - destruct (handle env item rest st) as [st1| |]; simpl; [apply IH | done | done].
Qed.

(** The tables of [parse] only grow: what the chart, [visited], [attempted]
    and the two nonterminal indices hold after some rounds, they still hold
    after more rounds; the log of calls is only extended, and [success]
    stays set once it is set. *)
Theorem rounds_only_add n m gr string graph st st' :
  parse_steps n gr string graph = Ok st →
  parse_steps (n + m) gr string graph = Ok st' →
  grows st st'.
Proof.
  unfold parse_steps. intros Hn Hnm. rewrite steps_add, Hn in Hnm. simpl in Hnm.
  eapply (steps_invariant (grows st)); [|exact Hnm|apply grows_refl].
  intros item rest s1 s2 _ Hh Hs. eapply grows_trans; [exact Hs|].
  by eapply grows_handle.
Qed.

(** *** The success flag *)

Definition success_part st : bool * gset (list Item) :=
  (success st, dd_get (chart st) START).

Lemma record_item_success_part production st nitem :
  success_part (record_item production st nitem) = success_part st.
Proof.
  unfold record_item, success_part.
  destruct (_ && _); simpl; by rewrite dd_get_add_ne.
Qed.

Lemma wake_up_success_part st ritem : success_part (wake_up st ritem) = success_part st.
Proof. unfold wake_up. by case_bool_decide. Qed.

Lemma try_complete_success_part item st oitem :
  success_part (try_complete item st oitem) = success_part st.
Proof.
  unfold try_complete. case_bool_decide; [done|]. simpl.
  destruct (negb (can_complete item oitem)); [done|].
  by rewrite record_item_success_part.
Qed.

Lemma seed_success_part cls nl st rule :
  success_part (seed cls nl st rule) = success_part st.
Proof. unfold seed. by destruct (outside_is_nonterminal _). Qed.

(** The flag [success] of line 114 is set exactly when the goal key has a
    production. *)
Theorem success_iff_goal_production n gr string graph st :
  parse_steps n gr string graph = Ok st →
  success st = true ↔ dd_get (chart st) START ≠ ∅.
Proof.
  intros Hrun.
  eapply (steps_invariant (λ s, success s = true ↔ dd_get (chart s) START ≠ ∅));
    [|exact Hrun|].
  - clear. intros item rest st st' _ Hrun Hinv. revert Hrun. unfold handle.
    case_bool_decide; [done|]. intros Hrun.
    assert (∀ s s', success_part s' = success_part s →
              (success s = true ↔ dd_get (chart s) START ≠ ∅) →
              (success s' = true ↔ dd_get (chart s') START ≠ ∅)) as Hpart.
    { unfold success_part. intros s s' [= -> ->]. done. }
    destruct (closed item).
    + inversion Hrun as [Hst']; clear Hrun Hst'.
      eapply Hpart; [apply foldl_part, wake_up_success_part|].
      destruct (successful_parse _ _ _ _ _ _); simpl; [|done].
      split; [|done]. intros _. rewrite dd_get_add, decide_True by done. set_solver.
    + destruct (outside_is_nonterminal item).
      * inversion Hrun as [Hst']; clear Hrun Hst'.
        eapply Hpart; [apply foldl_part, try_complete_success_part | done].
      * apply bind_ok in Hrun as (new_items & _ & [= <-]).
        eapply Hpart; [apply foldl_part, record_item_success_part | done].
  - assert (success_part (init_state gr string graph) = (false, ∅)) as [= -> ->].
    { unfold init_state. rewrite foldl_part; [done|]. apply seed_success_part. }
    done.
Qed.

End Growth.

(** ** The agenda explores exactly the derivable items *)

Section Agenda.
Context `{SetOrder} `{ItemAlgebra}.
Implicit Types (st : State) (env : Env) (item x o n : Item)
  (axioms : list Item).

(** The invariant of the loop. [Ep], [Es] and [Ec] name what is still owed
    in the middle of a round: pairs not yet attempted, an item whose shifts
    are not yet recorded, a pair whose completion is not yet recorded. *)
Record agenda_inv env axioms (Ep : Item → Item → Prop) (Es : Item → Prop)
    (Ec : Item → Item → Prop) st : Prop := {
  inv_queue : ∀ x, x ∈ queue st → derivable env axioms x;
  inv_pending : ∀ x, x ∈ pending st → x ∈ queue st;
  inv_visited : ∀ x, x ∈ visited st → derivable env axioms x;
  inv_reverse : ∀ s x, x ∈ dd_get (reverse_lookup st) s →
    derivable env axioms x ∧ outside_is_nonterminal x = true ∧ outside_symbol x = s;
  inv_nonterminal : ∀ s o, o ∈ dd_get (nonterminal_lookup st) s ↔
    o ∈ visited st ∧ closed o = true ∧ rule_symbol o = s;
  inv_attempted : ∀ x o, (x, o) ∈ attempted st →
    x ∈ visited st ∧ closed x = false ∧ outside_is_nonterminal x = true ∧
    o ∈ dd_get (nonterminal_lookup st) (outside_symbol x);
  inv_chart : ∀ n p, p ∈ dd_get (chart st) (KItem n) →
    (∃ x, p = [x] ∧ x ∈ visited st ∧ shift_step env x n) ∨
    (∃ x o, p = [x; o] ∧ (x, o) ∈ attempted st ∧
            can_complete x o = true ∧ n = complete x o);
  inv_known : ∀ n, dd_get (chart st) (KItem n) ≠ ∅ → n ∈ visited st ∨ n ∈ pending st;
  inv_axioms : ∀ a, a ∈ axioms → a ∈ visited st ∨ a ∈ pending st;
  inv_waiting : ∀ x, x ∈ visited st → closed x = false →
    outside_is_nonterminal x = true →
    x ∈ dd_get (reverse_lookup st) (outside_symbol x);
  inv_pairs : closed_items_wait_for_nothing →
    ∀ s x o, x ∈ dd_get (reverse_lookup st) s →
             o ∈ dd_get (nonterminal_lookup st) s →
             (x, o) ∈ attempted st ∨ x ∈ pending st ∨ Ep x o;
  inv_completed : ∀ x o, (x, o) ∈ attempted st → can_complete x o = true →
    Ec x o ∨ [x; o] ∈ dd_get (chart st) (KItem (complete x o));
  inv_shifted : ∀ x n, x ∈ visited st → shift_step env x n →
    Es x ∨ [x] ∈ dd_get (chart st) (KItem n)
}.

Definition nothing2 : Item → Item → Prop := λ _ _, False.
Definition nothing1 : Item → Prop := λ _, False.

(** Paying what is owed. *)
Lemma agenda_inv_settle env axioms Ep Es Ec Ep' Es' Ec' st :
  agenda_inv env axioms Ep Es Ec st →
  (closed_items_wait_for_nothing →
   ∀ s x o, x ∈ dd_get (reverse_lookup st) s →
            o ∈ dd_get (nonterminal_lookup st) s → Ep x o →
            (x, o) ∈ attempted st ∨ x ∈ pending st ∨ Ep' x o) →
  (∀ x n, x ∈ visited st → shift_step env x n → Es x →
          Es' x ∨ [x] ∈ dd_get (chart st) (KItem n)) →
  (∀ x o, (x, o) ∈ attempted st → can_complete x o = true → Ec x o →
          Ec' x o ∨ [x; o] ∈ dd_get (chart st) (KItem (complete x o))) →
  agenda_inv env axioms Ep' Es' Ec' st.
Proof.
  intros [] Hp Hs Hc. split; try done.
  - intros Hlaw s x o Hx Ho.
    destruct (inv_pairs0 Hlaw s x o Hx Ho) as [?|[?|?]]; eauto.
  - intros x o Hxo Hcan. destruct (inv_completed0 x o Hxo Hcan); eauto.
  - intros x n Hx Hstep. destruct (inv_shifted0 x n Hx Hstep); eauto.
Qed.

(** Recording a production that is a valid step, for a derivable item. *)
Lemma record_item_inv env axioms Ep Es Ec production st n :
  agenda_inv env axioms Ep Es Ec st →
  derivable env axioms n →
  ((∃ x, production = [x] ∧ x ∈ visited st ∧ shift_step env x n) ∨
   (∃ x o, production = [x; o] ∧ (x, o) ∈ attempted st ∧
           can_complete x o = true ∧ n = complete x o)) →
  agenda_inv env axioms Ep Es Ec (record_item production st n).
Proof.
  intros [] Hn Hvalid. unfold record_item.
  assert (∀ k p, p ∈ dd_get (chart st) k →
                 p ∈ dd_get (dd_add (KItem n) production (chart st)) k) as Hmono.
  { intros k p Hp. by apply (dd_add_subseteq (KItem n) k production). }
  assert (∀ m p, p ∈ dd_get (dd_add (KItem n) production (chart st)) (KItem m) →
                 p ∈ dd_get (chart st) (KItem m) ∨ (m = n ∧ p = production))
    as Hnew.
  { intros m p. rewrite dd_get_add. destruct (decide (KItem n = KItem m)) as [[= ->]|].
    - intros [->%elem_of_singleton|?]%elem_of_union; [by right | by left].
    - by left. }
  destruct (bool_decide (n ∉ _) && bool_decide (n ∉ _)) eqn:Hguard; simpl.
  - split; simpl.
    + intros x [?| ->%list_elem_of_singleton]%elem_of_app; auto.
    + intros x [->%elem_of_singleton|?]%elem_of_union; apply elem_of_app;
        [right; left | left; auto].
    + done.
    + done.
    + done.
    + done.
    + intros m p [?|[-> ->]]%Hnew; auto.
    + intros m Hm. destruct (decide (m = n)) as [->|Hne]; [right; set_solver|].
      destruct (inv_known0 m) as [?|?]; [|by left | right; set_solver].
      intros He. apply Hm, set_eq. intros p. split; [|set_solver].
      intros [Hp|[? _]]%Hnew; [|done]. rewrite He in Hp. set_solver.
    + intros a Ha. destruct (inv_axioms0 a Ha); [by left | right; set_solver].
    + done.
    + intros Hlaw s x o Hx Ho.
      destruct (inv_pairs0 Hlaw s x o Hx Ho) as [?|[?|?]]; eauto.
      right; left. set_solver.
    + intros x o Hxo Hcan. destruct (inv_completed0 x o Hxo Hcan); eauto.
    + intros x m Hx Hstep. destruct (inv_shifted0 x m Hx Hstep); eauto.
  - apply andb_false_iff in Hguard.
    assert (n ∈ visited st ∨ n ∈ pending st) as Hin.
    { destruct Hguard as [Hg|Hg]; apply bool_decide_eq_false in Hg;
        apply dec_stable in Hg; auto. }
    split; simpl; try done.
    + intros m p [?|[-> ->]]%Hnew; auto.
    + intros m Hm. destruct (decide (m = n)) as [->|Hne]; [done|].
      apply inv_known0. intros He. apply Hm, set_eq. intros p. split; [|set_solver].
      intros [Hp|[? _]]%Hnew; [|done]. rewrite He in Hp. set_solver.
    + intros x o Hxo Hcan. destruct (inv_completed0 x o Hxo Hcan); eauto.
    + intros x m Hx Hstep. destruct (inv_shifted0 x m Hx Hstep); eauto.
Qed.

Lemma record_item_recorded production st n :
  production ∈ dd_get (chart (record_item production st n)) (KItem n).
Proof.
  unfold record_item. destruct (_ && _); simpl; rewrite elem_of_dd_get_add; by left.
Qed.

(** Waking up an item of the waiting index. *)
Lemma wake_up_inv env axioms Ep Es Ec st s ritem :
  agenda_inv env axioms Ep Es Ec st →
  ritem ∈ dd_get (reverse_lookup st) s →
  agenda_inv env axioms Ep Es Ec (wake_up st ritem).
Proof.
  intros Hinv Hr. unfold wake_up. case_bool_decide; [|done].
  destruct Hinv. split; simpl; try done.
  - intros x [?| ->%list_elem_of_singleton]%elem_of_app; [auto|].
    by destruct (inv_reverse0 s ritem Hr).
  - intros x [->%elem_of_singleton|?]%elem_of_union; apply elem_of_app;
      [right; left | left; auto].
  - intros m Hm. destruct (inv_known0 m Hm); [by left | right; set_solver].
  - intros a Ha. destruct (inv_axioms0 a Ha); [by left | right; set_solver].
  - intros Hlaw s' x o Hx Ho.
    destruct (inv_pairs0 Hlaw s' x o Hx Ho) as [?|[?|?]]; eauto.
    right; left. set_solver.
Qed.

(** One round of the completion loop for a handled item. *)
Lemma try_complete_inv env axioms Ep Es st item oitem :
  agenda_inv env axioms Ep Es nothing2 st →
  item ∈ visited st → closed item = false → outside_is_nonterminal item = true →
  oitem ∈ dd_get (nonterminal_lookup st) (outside_symbol item) →
  agenda_inv env axioms Ep Es nothing2 (try_complete item st oitem).
Proof.
  intros Hinv Hv Hc Hnt Ho. unfold try_complete. case_bool_decide as Hatt; [done|].
  simpl.
  set (st1 := (call_can_complete item oitem (attempt item oitem st)).2).
  assert (agenda_inv env axioms Ep Es (λ x o, x = item ∧ o = oitem) st1) as Hinv1.
  { destruct Hinv. split; simpl; try done.
    - intros x o [[= -> ->]%elem_of_singleton|?]%elem_of_union; auto.
    - intros m p Hp. destruct (inv_chart0 m p Hp) as [?|(x & o & ? & ? & ?)]; auto.
      right. exists x, o. split; [done|]. split; [set_solver | done].
    - intros Hlaw s x o Hx Hoo.
      destruct (inv_pairs0 Hlaw s x o Hx Hoo) as [?|[?|?]]; eauto.
      left. set_solver.
    - intros x o [[= -> ->]%elem_of_singleton|Hxo]%elem_of_union Hcan; [by left|].
      destruct (inv_completed0 x o Hxo Hcan) as [[]|?]. by right. }
  destruct (can_complete item oitem) eqn:Hcan; simpl.
  - eapply agenda_inv_settle.
    + apply (record_item_inv _ _ _ _ _ [item; oitem] st1 (complete item oitem) Hinv1).
      * destruct Hinv. apply inv_nonterminal0 in Ho as (Hov & Hoc & Hos).
        apply (derivable_complete _ _ item oitem);
          [by apply inv_visited0 | by apply inv_visited0|].
        by repeat split.
      * right. exists item, oitem. repeat split; try done. simpl. set_solver.
    + eauto.
    + eauto.
    + intros x o _ _ [-> ->]. right. apply record_item_recorded.
  - eapply agenda_inv_settle; [exact Hinv1 | eauto | eauto |].
    intros x o _ Hcan' [-> ->]. congruence.
Qed.

End Agenda.

Section AgendaRounds.
Context `{SetOrder} `{ItemAlgebra}.
Implicit Types (st : State) (env : Env) (item x o n : Item)
  (axioms : list Item).

(** What the three inner loops leave as it is. *)
Definition frame_part st
    : gset Item * gmap string (gset Item) * gmap string (gset Item) :=
  (visited st, nonterminal_lookup st, reverse_lookup st).

Lemma record_item_frame_part production st n :
  frame_part (record_item production st n) = frame_part st.
Proof. unfold record_item. by destruct (_ && _). Qed.

Lemma wake_up_frame_part st ritem : frame_part (wake_up st ritem) = frame_part st.
Proof. unfold wake_up. by case_bool_decide. Qed.

Lemma try_complete_frame_part item st oitem :
  frame_part (try_complete item st oitem) = frame_part st.
Proof.
  unfold try_complete. case_bool_decide; [done|]. simpl.
  destruct (negb (can_complete item oitem)); [done|].
  by rewrite record_item_frame_part.
Qed.

(** A loop body that establishes a fact for its element and keeps the facts
    established before establishes it for every element. *)
Lemma foldl_reaches {B} (f : State → B → State) (Q : B → State → Prop)
    (l : list B) st :
  (∀ s (b : B), Q b (f s b)) →
  (∀ s (b c : B), Q c s → Q c (f s b)) →
  ∀ c : B, c ∈ l → Q c (foldl f st l).
Proof.
  intros Hnew Hkeep. revert st. induction l as [|b l IH]; intros st c Hc.
  - by apply elem_of_nil in Hc.
  - simpl. apply elem_of_cons in Hc as [->|Hc]; [|by apply IH].
    apply (foldl_invariant (Q b)); [apply Hnew|]. intros s b' Hs _. by apply Hkeep.
Qed.

Lemma goal_entry_inv env axioms Ep Es Ec production st :
  agenda_inv env axioms Ep Es Ec st →
  agenda_inv env axioms Ep Es Ec (set_success (chart_add START production st)).
Proof.
  intros []. split; simpl; try done.
  all: intros *; rewrite dd_get_add_ne by done; eauto.
Qed.

Lemma closed_pop_inv env axioms item rest st :
  agenda_inv env axioms nothing2 nothing1 nothing2 st →
  queue st = item :: rest → closed item = true →
  agenda_inv env axioms (λ x o, o = item) nothing1 nothing2
    (add_nonterminal (rule_symbol item) item (pop_item item rest st)).
Proof.
  intros [] Hq Hc.
  assert (∀ x, x ∈ queue st ↔ x = item ∨ x ∈ rest) as Hmem
    by (intros x; by rewrite Hq, elem_of_cons).
  split; simpl.
  - intros x Hx. apply inv_queue0, Hmem. by right.
  - intros x [Hx Hne]%elem_of_difference.
    apply inv_pending0, Hmem in Hx as [->|?]; [set_solver | done].
  - intros x [->%elem_of_singleton|?]%elem_of_union; [|auto].
    apply inv_queue0, Hmem. by left.
  - done.
  - intros s o. rewrite dd_get_add.
    destruct (decide (rule_symbol item = s)) as [<-|Hne].
    + rewrite elem_of_union, elem_of_singleton, inv_nonterminal0. set_solver.
    + rewrite inv_nonterminal0. set_solver.
  - intros x o Hxo. destruct (inv_attempted0 x o Hxo) as (? & ? & ? & Ho).
    split; [set_solver|]. split; [done|]. split; [done|].
    by apply (dd_add_subseteq (rule_symbol item)).
  - intros n p Hp. destruct (inv_chart0 n p Hp) as [(x & ? & ? & ?)|?]; [|by right].
    left. exists x. split; [done|]. split; [set_solver | done].
  - intros n Hn. destruct (inv_known0 n Hn) as [?|?]; [left; set_solver|].
    destruct (decide (n = item)) as [->|]; [left | right]; set_solver.
  - intros a Ha. destruct (inv_axioms0 a Ha) as [?|?]; [left; set_solver|].
    destruct (decide (a = item)) as [->|]; [left | right]; set_solver.
  - intros x [->%elem_of_singleton|?]%elem_of_union Hcx; [congruence | auto].
  - intros Hlaw s x o Hx. rewrite dd_get_add.
    assert (x ≠ item) as Hne.
    { intros ->. destruct (inv_reverse0 s item Hx) as (_ & Hnt & _).
      rewrite (Hlaw item Hc) in Hnt. done. }
    intros Ho.
    assert (o = item ∨ o ∈ dd_get (nonterminal_lookup st) s) as [->|Ho'].
    { destruct (decide (rule_symbol item = s)) as [<-|]; [|by right].
      apply elem_of_union in Ho as [->%elem_of_singleton|?]; [by left | by right]. }
    + by right; right.
    + destruct (inv_pairs0 Hlaw s x o Hx Ho') as [?|[?|[]]]; [by left|].
      right; left. set_solver.
  - done.
  - intros x n [->%elem_of_singleton|Hx]%elem_of_union Hstep.
    + destruct Hstep as (Hcx & _). congruence.
    + by apply inv_shifted0.
Qed.

Lemma waiting_pop_inv env axioms item rest st :
  agenda_inv env axioms nothing2 nothing1 nothing2 st →
  queue st = item :: rest →
  closed item = false → outside_is_nonterminal item = true →
  agenda_inv env axioms (λ x o, x = item) nothing1 nothing2
    (add_reverse (outside_symbol item) item (pop_item item rest st)).
Proof.
  intros [] Hq Hc Hnt.
  assert (∀ x, x ∈ queue st ↔ x = item ∨ x ∈ rest) as Hmem
    by (intros x; by rewrite Hq, elem_of_cons).
  assert (derivable env axioms item) as Hd by (apply inv_queue0, Hmem; by left).
  split; simpl.
  - intros x Hx. apply inv_queue0, Hmem. by right.
  - intros x [Hx Hne]%elem_of_difference.
    apply inv_pending0, Hmem in Hx as [->|?]; [set_solver | done].
  - intros x [->%elem_of_singleton|?]%elem_of_union; auto.
  - intros s x. rewrite dd_get_add.
    destruct (decide (outside_symbol item = s)) as [<-|Hne]; [|apply inv_reverse0].
    intros [->%elem_of_singleton|?]%elem_of_union; [done | by apply inv_reverse0].
  - intros s o. rewrite inv_nonterminal0. split; [set_solver|].
    intros ([->%elem_of_singleton|?]%elem_of_union & ? & ?); [congruence | done].
  - intros x o Hxo. destruct (inv_attempted0 x o Hxo) as (? & ? & ? & Ho).
    split; [set_solver | done].
  - intros n p Hp. destruct (inv_chart0 n p Hp) as [(x & ? & ? & ?)|?]; [|by right].
    left. exists x. split; [done|]. split; [set_solver | done].
  - intros n Hn. destruct (inv_known0 n Hn) as [?|?]; [left; set_solver|].
    destruct (decide (n = item)) as [->|]; [left | right]; set_solver.
  - intros a Ha. destruct (inv_axioms0 a Ha) as [?|?]; [left; set_solver|].
    destruct (decide (a = item)) as [->|]; [left | right]; set_solver.
  - intros x Hx Hcx Hntx.
    apply elem_of_union in Hx as [->%elem_of_singleton|Hx].
    + rewrite dd_get_add, decide_True by done. set_solver.
    + apply (dd_add_subseteq (outside_symbol item)). by apply inv_waiting0.
  - intros Hlaw s x o Hx Ho.
    destruct (decide (x = item)) as [->|Hne]; [by right; right|].
    assert (x ∈ dd_get (reverse_lookup st) s) as Hx'.
    { rewrite dd_get_add in Hx.
      destruct (decide (outside_symbol item = s)) as [<-|]; [|done].
      apply elem_of_union in Hx as [?%elem_of_singleton|?]; done. }
    destruct (inv_pairs0 Hlaw s x o Hx' Ho) as [?|[?|[]]]; [by left|].
    right; left. set_solver.
  - done.
  - intros x n [->%elem_of_singleton|Hx]%elem_of_union Hstep.
    + destruct Hstep as (_ & Hntx & _). congruence.
    + by apply inv_shifted0.
Qed.

Lemma shifting_pop_inv env axioms item rest st :
  agenda_inv env axioms nothing2 nothing1 nothing2 st →
  queue st = item :: rest →
  closed item = false → outside_is_nonterminal item = false →
  agenda_inv env axioms (λ x o, x = item) (λ x, x = item) nothing2
    (pop_item item rest st).
Proof.
  intros [] Hq Hc Hnt.
  assert (∀ x, x ∈ queue st ↔ x = item ∨ x ∈ rest) as Hmem
    by (intros x; by rewrite Hq, elem_of_cons).
  split; simpl.
  - intros x Hx. apply inv_queue0, Hmem. by right.
  - intros x [Hx Hne]%elem_of_difference.
    apply inv_pending0, Hmem in Hx as [->|?]; [set_solver | done].
  - intros x [->%elem_of_singleton|?]%elem_of_union; [|auto].
    apply inv_queue0, Hmem. by left.
  - done.
  - intros s o. rewrite inv_nonterminal0. split; [set_solver|].
    intros ([->%elem_of_singleton|?]%elem_of_union & ? & ?); [congruence | done].
  - intros x o Hxo. destruct (inv_attempted0 x o Hxo) as (? & ? & ? & Ho).
    split; [set_solver | done].
  - intros n p Hp. destruct (inv_chart0 n p Hp) as [(x & ? & ? & ?)|?]; [|by right].
    left. exists x. split; [done|]. split; [set_solver | done].
  - intros n Hn. destruct (inv_known0 n Hn) as [?|?]; [left; set_solver|].
    destruct (decide (n = item)) as [->|]; [left | right]; set_solver.
  - intros a Ha. destruct (inv_axioms0 a Ha) as [?|?]; [left; set_solver|].
    destruct (decide (a = item)) as [->|]; [left | right]; set_solver.
  - intros x [->%elem_of_singleton|?]%elem_of_union Hcx Hntx; [congruence | auto].
  - intros Hlaw s x o Hx Ho.
    destruct (decide (x = item)) as [->|Hne]; [by right; right|].
    destruct (inv_pairs0 Hlaw s x o Hx Ho) as [?|[?|[]]]; [by left|].
    right; left. set_solver.
  - done.
  - intros x n [->%elem_of_singleton|Hx]%elem_of_union Hstep; [by left|].
    destruct (inv_shifted0 x n Hx Hstep) as [[]|?]. by right.
Qed.

End AgendaRounds.

Section AgendaInvariant.
Context `{SetOrder} `{ItemAlgebra}.
Implicit Types (st : State) (env : Env) (item x o n : Item)
  (axioms : list Item).

Lemma frame_part_eq st st' :
  frame_part st' = frame_part st →
  visited st' = visited st ∧ nonterminal_lookup st' = nonterminal_lookup st ∧
  reverse_lookup st' = reverse_lookup st.
Proof. unfold frame_part. by intros [= -> -> ->]. Qed.

Lemma try_complete_attempted item st oitem :
  (item, oitem) ∈ attempted (try_complete item st oitem).
Proof.
  unfold try_complete. case_bool_decide as Hatt; [done|]. simpl.
  destruct (negb (can_complete item oitem)); simpl.
  - set_solver.
  - pose proof (grows_record_item [item; oitem]
                  (call_can_complete item oitem (attempt item oitem st)).2
                  (complete item oitem)) as (_ & Hsub & _).
    apply Hsub. simpl. set_solver.
Qed.

Lemma wake_up_pending st ritem : ritem ∈ pending (wake_up st ritem).
Proof.
  unfold wake_up. case_bool_decide as Hp; simpl; [set_solver | done].
Qed.

Lemma wake_up_pending_mono st ritem y : y ∈ pending st → y ∈ pending (wake_up st ritem).
Proof. unfold wake_up. case_bool_decide; simpl; set_solver. Qed.

(** A round keeps the invariant. *)
Lemma handle_agenda_inv env axioms item rest st st' :
  queue st = item :: rest →
  handle env item rest st = Ok st' →
  agenda_inv env axioms nothing2 nothing1 nothing2 st →
  agenda_inv env axioms nothing2 nothing1 nothing2 st'.
Proof.
  intros Hq. unfold handle. case_bool_decide; [done|]. intros Hrun Hinv.
  destruct (closed item) eqn:Hc.
  - inversion Hrun as [Hst']; clear Hrun Hst'.
    set (st2 := add_nonterminal (rule_symbol item) item _).
    assert (agenda_inv env axioms (λ x o, o = item) nothing1 nothing2 st2) as H2.
    { subst st2. destruct (successful_parse _ _ _ _ _ _).
      - apply (goal_entry_inv env axioms _ _ _ [item]
                 (add_nonterminal (rule_symbol item) item (pop_item item rest st))).
        by apply closed_pop_inv.
      - by apply closed_pop_inv. }
    assert (reverse_lookup st2 = reverse_lookup st) as Hrl.
    { subst st2. by destruct (successful_parse _ _ _ _ _ _). }
    set (l := iter (dd_get (reverse_lookup st2) (rule_symbol item))).
    assert (agenda_inv env axioms (λ x o, o = item) nothing1 nothing2 (foldl wake_up st2 l)
            ∧ frame_part (foldl wake_up st2 l) = frame_part st2) as [Hf Hframe].
    { apply (foldl_invariant
               (λ s, agenda_inv env axioms (λ x o, o = item) nothing1 nothing2 s
                     ∧ frame_part s = frame_part st2)); [done|].
      intros s ritem [Hs Hfr] Hin. split; [|by rewrite wake_up_frame_part].
      apply frame_part_eq in Hfr as (_ & _ & Hr).
      eapply wake_up_inv; [done|]. rewrite Hr. by apply elem_of_iter in Hin. }
    apply frame_part_eq in Hframe as (_ & _ & Hr).
    eapply agenda_inv_settle; [exact Hf | | eauto | eauto].
    intros _ s x o Hx Ho ->. right; left.
    apply (inv_nonterminal _ _ _ _ _ _ Hf) in Ho as (_ & _ & <-).
    change (x ∈ dd_get (reverse_lookup (foldl wake_up st2 l)) (rule_symbol item)) in Hx.
    change (x ∈ pending (foldl wake_up st2 l)).
    rewrite Hr in Hx. apply elem_of_iter in Hx.
    apply (foldl_reaches wake_up (λ y s, y ∈ pending s)).
    + intros. apply wake_up_pending.
    + intros. by apply wake_up_pending_mono.
    + exact Hx.
  - destruct (outside_is_nonterminal item) eqn:Hnt.
    + inversion Hrun as [Hst']; clear Hrun Hst'.
      set (st2 := add_reverse (outside_symbol item) item (pop_item item rest st)).
      pose proof (waiting_pop_inv env axioms item rest st Hinv Hq Hc Hnt) as H2.
      fold st2 in H2.
      set (l := iter (dd_get (nonterminal_lookup st2) (outside_symbol item))).
      assert (agenda_inv env axioms (λ x o, x = item) nothing1 nothing2
                (foldl (try_complete item) st2 l)
              ∧ frame_part (foldl (try_complete item) st2 l) = frame_part st2)
        as [Hf Hframe].
      { apply (foldl_invariant
                 (λ s, agenda_inv env axioms (λ x o, x = item) nothing1 nothing2 s
                       ∧ frame_part s = frame_part st2)); [done|].
        intros s oitem [Hs Hfr] Hin. split; [|by rewrite try_complete_frame_part].
        apply frame_part_eq in Hfr as (Hv & Hn & _).
        apply try_complete_inv; try done.
        - rewrite Hv. simpl. set_solver.
        - rewrite Hn. by apply elem_of_iter in Hin. }
      apply frame_part_eq in Hframe as (_ & Hn & Hr).
      eapply agenda_inv_settle; [exact Hf | | eauto | eauto].
      intros _ s x o Hx Ho ->. left.
      apply (inv_reverse _ _ _ _ _ _ Hf) in Hx as (_ & _ & <-).
      change (o ∈ dd_get (nonterminal_lookup (foldl (try_complete item) st2 l))
                   (outside_symbol item)) in Ho.
      change ((item, o) ∈ attempted (foldl (try_complete item) st2 l)).
      rewrite Hn in Ho. apply elem_of_iter in Ho.
      apply (foldl_reaches (try_complete item) (λ y s, (item, y) ∈ attempted s)).
      * intros. apply try_complete_attempted.
      * intros s b c Hin.
        by apply (grows_try_complete item s b).
      * exact Ho.
    + apply bind_ok in Hrun as (new_items & Hcand & [= <-]).
      pose proof (shifting_pop_inv env axioms item rest st Hinv Hq Hc Hnt) as H2.
      set (st2 := pop_item item rest st) in *.
      assert (agenda_inv env axioms (λ x o, x = item) (λ x, x = item) nothing2
                (foldl (record_item [item]) st2 new_items)
              ∧ frame_part (foldl (record_item [item]) st2 new_items) = frame_part st2)
        as [Hf Hframe].
      { apply (foldl_invariant
                 (λ s, agenda_inv env axioms (λ x o, x = item) (λ x, x = item) nothing2 s
                       ∧ frame_part s = frame_part st2)); [done|].
        intros s nitem [Hs Hfr] Hin. split; [|by rewrite record_item_frame_part].
        apply frame_part_eq in Hfr as (Hv & _ & _).
        assert (shift_step env item nitem) as Hstep by (repeat split; eauto).
        assert (item ∈ visited s) as Hvis by (rewrite Hv; simpl; set_solver).
        apply record_item_inv; [done | | left; eauto].
        eapply derivable_shift; [|exact Hstep].
        by apply (inv_visited _ _ _ _ _ _ Hs). }
      eapply agenda_inv_settle; [exact Hf | | | eauto].
      * intros _ s x o Hx _ ->.
        apply (inv_reverse _ _ _ _ _ _ Hf) in Hx as (_ & Hnt' & _). congruence.
      * intros x n _ (_ & _ & l & Hl & Hn) ->. right.
        rewrite Hcand in Hl. apply ok_inj in Hl as <-.
        apply (foldl_reaches (record_item [item])
                 (λ y s, [item] ∈ dd_get (chart s) (KItem y))); [| |done].
        -- intros. apply record_item_recorded.
        -- intros s b c Hin.
           by apply (grows_record_item [item] s b).
Qed.

Lemma foldl_seed_reverse cls nl (rs : list Rule) st s x :
  x ∈ dd_get (reverse_lookup (foldl (seed cls nl) st rs)) s →
  x ∈ dd_get (reverse_lookup st) s ∨
  (x ∈ ((λ r, axiom cls r nl) <$> rs) ∧
   outside_is_nonterminal x = true ∧ outside_symbol x = s).
Proof.
  revert st. induction rs as [|r rs IH]; intros st; simpl; [by left|].
  intros [Hx|(Hx & ? & ?)]%IH.
  - unfold seed in Hx.
    destruct (outside_is_nonterminal (axiom cls r nl)) eqn:Hnt;
      simpl in Hx; [|by left].
    rewrite dd_get_add in Hx.
    destruct (decide (outside_symbol (axiom cls r nl) = s)) as [<-|]; [|by left].
    apply elem_of_union in Hx as [->%elem_of_singleton|?]; [|by left].
    right. split; [left | done].
  - right. split; [by right | done].
Qed.

Definition rest_part st :=
  (chart st, visited st, attempted st, nonterminal_lookup st).

Lemma seed_rest_part cls nl st rule : rest_part (seed cls nl st rule) = rest_part st.
Proof. unfold seed. by destruct (outside_is_nonterminal _). Qed.

(** Seeding establishes the invariant. *)
Lemma init_agenda_inv gr string graph :
  agenda_inv (make_env gr string graph) (axioms_of gr string graph)
    nothing2 nothing1 nothing2 (init_state gr string graph).
Proof.
  assert (rest_part (init_state gr string graph) = (∅, ∅, ∅, ∅)) as [= Hc Hv Ha Hn].
  { unfold init_state. rewrite foldl_part; [done|]. apply seed_rest_part. }
  destruct (foldl_seed_queue (axiom_class string graph) (nodelabels gr)
              (rules gr) empty_state) as [Hq Hp].
  fold (init_state gr string graph) in Hq, Hp. simpl in Hq.
  fold (axioms_of gr string graph) in Hq, Hp.
  split; rewrite ?Hc, ?Hv, ?Ha, ?Hn.
  - intros x Hx. rewrite Hq in Hx. by constructor.
  - intros x [Hx|Hx]%Hp; [set_solver | by rewrite Hq].
  - set_solver.
  - intros s x [Hx|(Hx & ? & ?)]%foldl_seed_reverse.
    + simpl in Hx. rewrite dd_get_empty in Hx. set_solver.
    + split; [by constructor | done].
  - intros s o. rewrite dd_get_empty. set_solver.
  - set_solver.
  - intros n p. rewrite dd_get_empty. set_solver.
  - intros n. by rewrite dd_get_empty.
  - intros a Ha'. right. apply Hp. by right.
  - set_solver.
  - intros _ s x o _. rewrite dd_get_empty. set_solver.
  - set_solver.
  - set_solver.
Qed.

Lemma steps_agenda_inv (rounds : nat) gr string graph st :
  parse_steps rounds gr string graph = Ok st →
  agenda_inv (make_env gr string graph) (axioms_of gr string graph)
    nothing2 nothing1 nothing2 st.
Proof.
  intros Hrun.
  eapply (steps_invariant (agenda_inv _ _ nothing2 nothing1 nothing2));
    [|exact Hrun|apply init_agenda_inv].
  intros item rest s1 s2 Hq Hh Hs. by eapply handle_agenda_inv.
Qed.

End AgendaInvariant.

(** ** The state before the first round *)

Section Seeding.
Context `{SetOrder} `{ItemAlgebra}.
Implicit Types (st : State) (x : Item).

Lemma foldl_seed_reverse_back cls nl (rs : list Rule) st s x :
  x ∈ dd_get (reverse_lookup st) s ∨
  (x ∈ ((λ r, axiom cls r nl) <$> rs) ∧
   outside_is_nonterminal x = true ∧ outside_symbol x = s) →
  x ∈ dd_get (reverse_lookup (foldl (seed cls nl) st rs)) s.
Proof.
  revert st. induction rs as [|r rs IH]; intros st; simpl.
  { intros [?|[?%elem_of_nil _]]; done. }
  intros Hx. apply IH. unfold seed.
  destruct Hx as [Hx|(Hx & Hnt & Hs)].
  - left. destruct (outside_is_nonterminal (axiom cls r nl)); simpl; [|done].
    rewrite dd_get_add. case_decide; [|done]. set_solver.
  - apply elem_of_cons in Hx as [->|Hx]; [|by right].
    left. rewrite Hnt. simpl. rewrite dd_get_add, decide_True by done. set_solver.
Qed.

(** Lines 86-114: when the loop starts, the queue holds the axioms of the
    rules in the order of the rules, [pending] is the set of them, the
    reverse table holds under each symbol the axioms that wait for it as a
    nonterminal, and the chart, [visited], [attempted], the table of closed
    items and the flag are empty or false. *)
Theorem seeding_state gr string graph :
  let st := init_state gr string graph in
  let axioms := axioms_of gr string graph in
  queue st = axioms ∧
  (∀ x, x ∈ pending st ↔ x ∈ axioms) ∧
  (∀ s x, x ∈ dd_get (reverse_lookup st) s ↔
          x ∈ axioms ∧ outside_is_nonterminal x = true ∧ outside_symbol x = s) ∧
  chart st = ∅ ∧ visited st = ∅ ∧ attempted st = ∅ ∧
  nonterminal_lookup st = ∅ ∧ success st = false ∧ can_complete_calls st = [].
Proof.
  intros st axioms.
  assert (rest_part st = (∅, ∅, ∅, ∅)) as [= Hc Hv Ha Hn].
  { unfold st, init_state. rewrite foldl_part; [done|]. apply seed_rest_part. }
  assert ((success st, can_complete_calls st) = (false, [])) as [= Hs Hl].
  { unfold st, init_state.
    rewrite (foldl_part (λ st, (success st, can_complete_calls st))); [done|].
    intros st' r. unfold seed. by destruct (outside_is_nonterminal _). }
  destruct (foldl_seed_queue (axiom_class string graph) (nodelabels gr)
              (rules gr) empty_state) as [Hq Hp].
  fold (init_state gr string graph) in Hq, Hp. simpl in Hq.
  fold (axioms_of gr string graph) in Hq, Hp.
  split; [exact Hq|]. split.
  { intros x. unfold st. rewrite Hp. simpl. set_solver. }
  split; [|done].
  intros s x. split.
  - intros [Hx|Hx]%foldl_seed_reverse; [|done].
    simpl in Hx. rewrite dd_get_empty in Hx. set_solver.
  - intros Hx. apply foldl_seed_reverse_back. by right.
Qed.

End Seeding.

Section AgendaTheorems.
Context `{SetOrder} `{ItemAlgebra}.
Implicit Types (st : State) (item x o : Item).

(** Soundness of the agenda: after any number of rounds, every item that
    was handled or waits in the queue is an axiom of the grammar or made of
    such items by shifts and completions. *)
Theorem handled_items_are_derivable rounds gr string graph st :
  parse_steps rounds gr string graph = Ok st →
  ∀ x, x ∈ visited st ∨ x ∈ queue st ∨ x ∈ pending st →
       derivable (make_env gr string graph) (axioms_of gr string graph) x.
Proof.
  intros Hrun x. destruct (steps_agenda_inv _ _ _ _ _ Hrun).
  intros [?|[?|?]]; auto.
Qed.

(** Every production that the raw chart holds for an item is a step the
    engine can take: the 1-tuple of a handled open item of which the item is
    a shift, or the pair of a handled open item and a handled closed item of
    the symbol it waits for, which [can_complete] accepts and of which the
    item is the completion. So a production under an item has one or two
    antecedents. *)
Theorem raw_chart_records_valid_steps rounds gr string graph st :
  parse_steps rounds gr string graph = Ok st →
  ∀ nitem p, p ∈ dd_get (chart st) (KItem nitem) →
    (length p = 1%nat ∨ length p = 2%nat) ∧
    ((∃ x, p = [x] ∧ x ∈ visited st ∧
           shift_step (make_env gr string graph) x nitem) ∨
     (∃ x o, p = [x; o] ∧ x ∈ visited st ∧ o ∈ visited st ∧
             complete_step x o nitem)).
Proof.
  intros Hrun nitem p Hp. destruct (steps_agenda_inv _ _ _ _ _ Hrun).
  destruct (inv_chart0 nitem p Hp) as [(x & -> & ? & ?)|(x & o & -> & Hatt & ? & ?)].
  - split; [by left|]. left. by exists x.
  - split; [by right|]. right. exists x, o.
    destruct (inv_attempted0 x o Hatt) as (? & ? & ? & (? & ? & ?)%inv_nonterminal0).
    by repeat split.
Qed.

(** The index of completed items holds, under each symbol, exactly the
    handled closed items of rules with that left-hand symbol; an item filed
    in the index of waiting items under a symbol waits for that symbol. *)
Theorem nonterminal_indices rounds gr string graph st :
  parse_steps rounds gr string graph = Ok st →
  (∀ s o, o ∈ dd_get (nonterminal_lookup st) s ↔
          o ∈ visited st ∧ closed o = true ∧ rule_symbol o = s) ∧
  (∀ s x, x ∈ dd_get (reverse_lookup st) s →
          outside_is_nonterminal x = true ∧ outside_symbol x = s) ∧
  (∀ x, x ∈ visited st → closed x = false → outside_is_nonterminal x = true →
        x ∈ dd_get (reverse_lookup st) (outside_symbol x)).
Proof.
  intros Hrun. destruct (steps_agenda_inv _ _ _ _ _ Hrun).
  split; [done|]. split; [|done]. intros s x Hx.
  by destruct (inv_reverse0 s x Hx) as (_ & ? & ?).
Qed.

(** [can_complete] is only tried on a handled open item that waits for a
    nonterminal and a handled closed item of a rule for exactly that
    symbol; when it accepts, the pair is recorded as a production of the
    completed item. *)
Theorem attempted_pairs_fit rounds gr string graph st :
  parse_steps rounds gr string graph = Ok st →
  ∀ x o, (x, o) ∈ attempted st →
    x ∈ visited st ∧ closed x = false ∧ outside_is_nonterminal x = true ∧
    o ∈ visited st ∧ closed o = true ∧ rule_symbol o = outside_symbol x ∧
    (can_complete x o = true →
     [x; o] ∈ dd_get (chart st) (KItem (complete x o))).
Proof.
  intros Hrun x o Hatt. destruct (steps_agenda_inv _ _ _ _ _ Hrun).
  destruct (inv_attempted0 x o Hatt) as (? & ? & ? & (? & ? & ?)%inv_nonterminal0).
  repeat split; try done. intros Hcan.
  by destruct (inv_completed0 x o Hatt Hcan) as [[]|?].
Qed.

(** At the return of [parse] nothing is pending. *)
Lemma nothing_pending_at_return fuel gr string graph st :
  parse_run fuel gr string graph = Ok st → pending st = ∅ ∧ queue st = [].
Proof.
  intros [Hrun Hq]%parse_run_steps. split; [|done].
  destruct (steps_agenda_inv _ _ _ _ _ Hrun).
  apply set_eq. intros x. split; [|set_solver].
  intros Hx%inv_pending0. rewrite Hq in Hx. by apply elem_of_nil in Hx.
Qed.

Lemma derivable_visited_at_return fuel gr string graph st :
  closed_items_wait_for_nothing →
  parse_run fuel gr string graph = Ok st →
  ∀ x, derivable (make_env gr string graph) (axioms_of gr string graph) x →
       x ∈ visited st.
Proof.
  intros Hlaw Hret. destruct (nothing_pending_at_return _ _ _ _ _ Hret) as [Hp _].
  apply parse_run_steps in Hret as [Hrun _].
  destruct (steps_agenda_inv _ _ _ _ _ Hrun).
  assert (∀ m, dd_get (chart st) (KItem m) ≠ ∅ → m ∈ visited st) as Hknown.
  { intros m Hm. destruct (inv_known0 m Hm) as [?|Hm']; [done|].
    rewrite Hp in Hm'. set_solver. }
  induction 1 as [a Ha|x m _ IHx Hstep|x o m _ IHx _ IHo Hstep].
  - destruct (inv_axioms0 a Ha) as [?|Ha']; [done|]. rewrite Hp in Ha'. set_solver.
  - apply Hknown. destruct (inv_shifted0 x m IHx Hstep) as [[]|Hin]. set_solver.
  - destruct Hstep as (Hcx & Hntx & Hco & Hsym & Hcan & ->).
    apply Hknown.
    assert ((x, o) ∈ attempted st) as Hatt.
    { destruct (inv_pairs0 Hlaw (outside_symbol x) x o) as [?|[Hx|[]]]; [| |done|].
      - by apply inv_waiting0.
      - by apply inv_nonterminal0.
      - rewrite Hp in Hx. set_solver. }
    destruct (inv_completed0 x o Hatt Hcan) as [[]|Hin]. set_solver.
Qed.

(** Completeness of the agenda: when no closed item waits for a
    nonterminal, the items handled by a call of [parse] that returns are
    exactly the items that shifts and completions make of the axioms, and
    every shift and every accepted completion of handled items is a
    production of the raw chart. *)
Theorem parse_explores_all_derivable_items fuel gr string graph st :
  closed_items_wait_for_nothing →
  parse_run fuel gr string graph = Ok st →
  (∀ x, x ∈ visited st ↔
        derivable (make_env gr string graph) (axioms_of gr string graph) x) ∧
  (∀ x nitem, x ∈ visited st →
     shift_step (make_env gr string graph) x nitem →
     nitem ∈ visited st ∧ [x] ∈ dd_get (chart st) (KItem nitem)) ∧
  (∀ x o nitem, x ∈ visited st → o ∈ visited st → complete_step x o nitem →
     nitem ∈ visited st ∧ [x; o] ∈ dd_get (chart st) (KItem nitem)).
Proof.
  intros Hlaw Hret.
  pose proof (derivable_visited_at_return _ _ _ _ _ Hlaw Hret) as Hall.
  destruct (nothing_pending_at_return _ _ _ _ _ Hret) as [Hp _].
  pose proof Hret as [Hrun _]%parse_run_steps.
  pose proof (steps_agenda_inv _ _ _ _ _ Hrun) as Hinv. destruct Hinv.
  split; [|split].
  - intros x. split; [by apply inv_visited0 | apply Hall].
  - intros x nitem Hx Hstep. split.
    + apply Hall. eapply derivable_shift; [|exact Hstep]. by apply inv_visited0.
    + by destruct (inv_shifted0 x nitem Hx Hstep) as [[]|?].
  - intros x o nitem Hx Ho Hstep. split.
    + apply Hall.
      eapply (derivable_complete _ _ x o); [by apply inv_visited0.. | done].
    + destruct Hstep as (Hcx & Hntx & Hco & Hsym & Hcan & ->).
      assert ((x, o) ∈ attempted st) as Hatt.
      { destruct (inv_pairs0 Hlaw (outside_symbol x) x o) as [?|[Hx'|[]]]; [| |done|].
        - by apply inv_waiting0.
        - by apply inv_nonterminal0.
        - rewrite Hp in Hx'. set_solver. }
      by destruct (inv_completed0 x o Hatt Hcan) as [[]|?].
Qed.

(** The goal key of the raw chart that [parse] returns has a production
    exactly when a full derivation exists: a derivable closed item of a rule
    for the start symbol that covers the entire input. *)
Theorem goal_found_iff_derivation_exists fuel gr string graph st :
  closed_items_wait_for_nothing →
  parse_run fuel gr string graph = Ok st →
  dd_get (chart st) START ≠ ∅ ↔
  ∃ x, derivable (make_env gr string graph) (axioms_of gr string graph) x ∧
       closed x = true ∧ rule_symbol x = start_symbol gr ∧
       covers_input gr string graph x.
Proof.
  intros Hlaw Hret.
  pose proof (derivable_visited_at_return _ _ _ _ _ Hlaw Hret) as Hall.
  pose proof Hret as [Hrun _]%parse_run_steps.
  pose proof (steps_goal_inv _ _ _ _ _ Hrun) as Hgoal.
  pose proof (steps_agenda_inv _ _ _ _ _ Hrun) as Hinv.
  split.
  - intros Hne. destruct (iter_nonempty _ Hne) as (p & _ & _ & Hp).
    apply Hgoal in Hp as (x & -> & Hx & Hc & [Hsym Hcov]%goal_test_spec).
    exists x. split; [by apply (inv_visited _ _ _ _ _ _ Hinv) | done].
  - intros (x & Hx & Hc & Hsym & Hcov).
    assert ([x] ∈ dd_get (chart st) START) as Hin; [|set_solver].
    apply Hgoal. exists x. repeat split; try done; [by apply Hall|].
    by apply goal_test_spec.
Qed.

End AgendaTheorems.

(** ** The queue and the exceptions of [parse] *)

Section QueueDiscipline.
Context `{SetOrder} `{ItemAlgebra}.
Implicit Types (st : State) (env : Env) (item : Item).

(** No item is twice in the queue, and [pending] is the set of the items of
    the queue. *)
Definition queue_inv st : Prop :=
  NoDup (queue st) ∧ ∀ x, x ∈ pending st ↔ x ∈ queue st.

Definition queue_part st : list Item * gset Item := (queue st, pending st).

Lemma queue_inv_part st st' : queue_part st' = queue_part st → queue_inv st → queue_inv st'.
Proof. unfold queue_inv, queue_part. by intros [= -> ->]. Qed.

Lemma enqueue_queue_inv x st : x ∉ pending st → queue_inv st → queue_inv (enqueue x st).
Proof.
  intros Hx [Hnd Hmem]. split; simpl.
  - apply NoDup_app. split; [done|]. split; [|apply NoDup_singleton].
    intros y Hy ->%list_elem_of_singleton. by apply Hx, Hmem.
  - intros y. rewrite elem_of_union, elem_of_singleton, elem_of_app,
      list_elem_of_singleton, Hmem. tauto.
Qed.

Lemma wake_up_queue_inv st ritem : queue_inv st → queue_inv (wake_up st ritem).
Proof. unfold wake_up. case_bool_decide; [by apply enqueue_queue_inv | done]. Qed.

Lemma record_item_queue_inv production st nitem :
  queue_inv st → queue_inv (record_item production st nitem).
Proof.
  intros Hinv. unfold record_item.
  case_bool_decide as Hp; simpl; [|done].
  case_bool_decide; simpl; [|done].
  by apply enqueue_queue_inv.
Qed.

Lemma try_complete_queue_inv item st oitem :
  queue_inv st → queue_inv (try_complete item st oitem).
Proof.
  intros Hinv. unfold try_complete. case_bool_decide; [done|]. simpl.
  destruct (negb (can_complete item oitem)); [done|].
  by apply record_item_queue_inv.
Qed.

Lemma pop_item_queue_inv item rest st :
  queue st = item :: rest → queue_inv st → queue_inv (pop_item item rest st).
Proof.
  intros Hq [Hnd Hmem]. rewrite Hq in Hnd. apply NoDup_cons in Hnd as [Hni Hnd].
  split; simpl; [done|]. intros x.
  rewrite elem_of_difference, elem_of_singleton, Hmem, Hq, elem_of_cons.
  split; [by intros [[->|?] ?] | intros Hx; split; [by right | by intros ->]].
Qed.

Lemma handle_queue_inv env item rest st st' :
  queue st = item :: rest →
  handle env item rest st = Ok st' → queue_inv st → queue_inv st'.
Proof.
  intros Hq. unfold handle. case_bool_decide; [done|]. intros Hrun Hinv.
  pose proof (pop_item_queue_inv item rest st Hq Hinv) as Hpop.
  destruct (closed item).
  - inversion Hrun as [Hst']; clear Hrun Hst'.
    apply (foldl_invariant queue_inv); [|intros s x Hs _; by apply wake_up_queue_inv].
    by destruct (successful_parse _ _ _ _ _ _).
  - destruct (outside_is_nonterminal item).
    + inversion Hrun as [Hst']; clear Hrun Hst'.
      apply (foldl_invariant queue_inv); [done|].
      intros s x Hs _. by apply try_complete_queue_inv.
    + apply bind_ok in Hrun as (new_items & _ & [= <-]).
      apply (foldl_invariant queue_inv); [done|].
      intros s x Hs _. by apply record_item_queue_inv.
Qed.

Lemma init_queue_inv gr string graph :
  NoDup (axioms_of gr string graph) → queue_inv (init_state gr string graph).
Proof.
  intros Hnd.
  destruct (foldl_seed_queue (axiom_class string graph) (nodelabels gr)
              (rules gr) empty_state) as [Hq Hp].
  fold (init_state gr string graph) in Hq, Hp. simpl in Hq.
  fold (axioms_of gr string graph) in Hq, Hp.
  split; [by rewrite Hq|]. intros x. rewrite Hp, Hq. simpl. set_solver.
Qed.

(** When the rules give distinct axioms, an item is never twice in the
    queue, and [pending] is at every moment the set of the queued items. *)
Theorem queue_has_no_duplicates rounds gr string graph st :
  NoDup (axioms_of gr string graph) →
  parse_steps rounds gr string graph = Ok st →
  NoDup (queue st) ∧ ∀ x, x ∈ pending st ↔ x ∈ queue st.
Proof.
  intros Hnd Hrun.
  eapply (steps_invariant queue_inv); [|exact Hrun|by apply init_queue_inv].
  intros item rest s1 s2 Hq Hh Hs. by eapply handle_queue_inv.
Qed.

(** The exceptions of one round: [KeyError] only for an item that is not
    pending, otherwise what the shift raises. *)
Lemma handle_outcome env item rest st :
  item ∈ pending st →
  (∃ st', handle env item rest st = Ok st') ∨
  (closed item = false ∧ outside_is_nonterminal item = false ∧
   ∃ e, shift_candidates env item = Raise e ∧ handle env item rest st = Raise e).
Proof.
  intros Hp. unfold handle.
  rewrite bool_decide_eq_false_2 by (intros Hn; by apply Hn).
  destruct (closed item); [by left; eexists|].
  destruct (outside_is_nonterminal item); [by left; eexists|].
  destruct (shift_candidates env item) as [l|e|] eqn:Hs; simpl.
  - left. by eexists.
  - right. repeat split. by exists e.
  - exfalso. unfold shift_candidates, py_assert in Hs.
    repeat (destruct (_ : bool) in Hs; simpl in Hs; try done).
Qed.

Lemma shift_candidates_raises env item e :
  shift_candidates env item = Raise e → e = AssertionError.
Proof.
  unfold shift_candidates, py_assert.
  repeat (destruct (_ : bool); simpl; try done); by intros [= <-].
Qed.

Lemma steps_outcome rounds env st :
  queue_inv st →
  (∃ st', steps rounds env st = Ok st') ∨ steps rounds env st = Raise AssertionError.
Proof.
  revert st. induction rounds as [|rounds IH]; intros st Hinv; simpl.
  - left. by eexists.
  - destruct (queue st) as [|item rest] eqn:Hq; [left; by eexists|].
    destruct (handle_outcome env item rest st) as [[st' Hh]|(_ & _ & e & He & Hh)].
    + apply Hinv. rewrite Hq. left.
    + rewrite Hh. simpl. apply IH. by eapply handle_queue_inv.
    + rewrite Hh. simpl. right. by rewrite (shift_candidates_raises _ _ _ He).
Qed.

(** When the rules give distinct axioms, [pending.remove(item)] never
    fails, and the only exception that a call of [parse] can raise is the
    [AssertionError] of lines 173 and 182. *)
Theorem parse_raises_only_assertion_errors rounds gr string graph :
  NoDup (axioms_of gr string graph) →
  (∃ st, parse_steps rounds gr string graph = Ok st) ∨
  parse_steps rounds gr string graph = Raise AssertionError.
Proof. intros Hnd. apply steps_outcome. by apply init_queue_inv. Qed.

Lemma steps_ok rounds env st :
  queue_inv st →
  (∀ item, is_ok (shift_candidates env item) = true) →
  ∃ st', steps rounds env st = Ok st'.
Proof.
  revert st. induction rounds as [|rounds IH]; intros st Hinv Hshift; simpl.
  - by eexists.
  - destruct (queue st) as [|item rest] eqn:Hq; [by eexists|].
    destruct (handle_outcome env item rest st) as [[st' Hh]|(_ & _ & e & He & _)].
    + apply Hinv. rewrite Hq. left.
    + rewrite Hh. simpl. apply IH; [by eapply handle_queue_inv | done].
    + specialize (Hshift item). by rewrite He in Hshift.
Qed.

(** A parse of a string alone, or of a graph alone, never raises when the
    rules give distinct axioms: every round returns. *)
Theorem single_input_parse_never_raises rounds gr string graph :
  NoDup (axioms_of gr string graph) →
  string_bool string ≠ graph_arg_bool graph →
  ∃ st, parse_steps rounds gr string graph = Ok st.
Proof.
  intros Hnd Hmode. apply steps_ok; [by apply init_queue_inv|].
  intros item. unfold shift_candidates. simpl.
  destruct (string_bool string), (graph_arg_bool graph); done.
Qed.

End QueueDiscipline.

(** ** The properties of the engine on the small algebra *)

Lemma ab_state_returned :
  parse_run 100 Small.grammar_ab (Some ["a"; "b"]%string) None = Ok ab_state.
Proof. apply is_ok_get. vm_compute. reflexivity. Qed.

Lemma ab_state_steps :
  parse_steps 100 Small.grammar_ab (Some ["a"; "b"]%string) None = Ok ab_state.
Proof. apply parse_run_steps, ab_state_returned. Qed.

Lemma ab_state_4_steps :
  parse_steps 4 Small.grammar_ab (Some ["a"; "b"]%string) None = Ok ab_state_4.
Proof. apply is_ok_get. vm_compute. reflexivity. Qed.

Lemma ab_axioms_distinct :
  NoDup (axioms_of Small.grammar_ab (Some ["a"; "b"]%string) None).
Proof. compute_done. Qed.

(** In the small algebra a closed item has no outside element. *)
Lemma small_closed_items_wait_for_nothing :
  @closed_items_wait_for_nothing Small.algebra.
Proof.
  intros x Hc. simpl in *. apply bool_decide_eq_true in Hc.
  unfold Small.out_is_nonterminal, Small.outside.
  rewrite lookup_ge_None_2; [done | lia].
Qed.

Lemma string_shift_candidates_witness :
  ["a"; "b"]%string ≠ [] ∧ graph_arg_bool (None : option (@Graph Small.algebra)) = false ∧
  ∃ new_items,
    shift_candidates (make_env Small.grammar_ab (Some ["a"; "b"]%string) None)
      Inputs.item_C0 = Ok new_items ∧
    ∀ nitem, nitem ∈ new_items ↔
      ∃ index, ["a"; "b"]%string !! index = Some (outside_word Inputs.item_C0) ∧
               cfg_can_shift Inputs.item_C0 (outside_word Inputs.item_C0) index = true ∧
               nitem = cfg_shift Inputs.item_C0 (outside_word Inputs.item_C0) index.
Proof.
  split; [done|]. split; [reflexivity|].
  apply (string_shift_candidates Small.grammar_ab ["a"; "b"]%string None
           Inputs.item_C0); done.
Defined.

Lemma graph_shift_candidates_witness :
  string_bool (None : option (list (@Word Small.algebra))) = false ∧
  graph_bool (graph_a : @Graph Small.algebra) = true ∧
  ∃ new_items,
    shift_candidates (make_env Small.grammar_a None (Some graph_a))
      Inputs.item_C0 = Ok new_items ∧
    ∀ nitem, nitem ∈ new_items ↔
      ∃ edge, edge ∈ triples (graph_a : @Graph Small.algebra)
                       (nodelabels Small.grammar_a) ∧
              edge_label edge = outside_edge Inputs.item_C0 ∧
              herg_can_shift Inputs.item_C0 edge = true ∧
              nitem = herg_shift Inputs.item_C0 edge.
Proof.
  split; [reflexivity|]. split; [reflexivity|].
  apply (graph_shift_candidates Small.grammar_a None
           (graph_a : @Graph Small.algebra) Inputs.item_C0); reflexivity.
Defined.

Lemma synchronous_shift_candidates_witness :
  ["a"; "b"]%string ≠ [] ∧ graph_bool (graph_a : @Graph Small.algebra) = true ∧
  outside_word_is_nonterminal Inputs.item_A0 = true ∧
  outside_edge_is_nonterminal Inputs.item_A0 = true ∧
  shift_candidates (make_env Small.grammar_ab (Some ["a"; "b"]%string) (Some graph_a))
    Inputs.item_A0 = Raise AssertionError.
Proof.
  split; [done|]. split; [reflexivity|]. split; [reflexivity|].
  split; [reflexivity|].
  refine (proj1 (proj2 (synchronous_shift_candidates Small.grammar_ab
                          ["a"; "b"]%string (graph_a : @Graph Small.algebra)
                          Inputs.item_A0 _ _)) _ _); done.
Defined.

Lemma rounds_only_add_witness :
  parse_steps 4 Small.grammar_ab (Some ["a"; "b"]%string) None = Ok ab_state_4 ∧
  parse_steps (4 + 96) Small.grammar_ab (Some ["a"; "b"]%string) None = Ok ab_state ∧
  grows ab_state_4 ab_state.
Proof.
  split; [exact ab_state_4_steps|]. split; [exact ab_state_steps|].
  exact (rounds_only_add 4 96 Small.grammar_ab _ None _ _
           ab_state_4_steps ab_state_steps).
Defined.

Lemma success_iff_goal_production_witness :
  parse_steps 100 Small.grammar_ab (Some ["a"; "b"]%string) None = Ok ab_state ∧
  (success ab_state = true ↔ dd_get (chart ab_state) START ≠ ∅).
Proof.
  split; [exact ab_state_steps|].
  exact (success_iff_goal_production 100 Small.grammar_ab _ None _ ab_state_steps).
Defined.

Lemma handled_items_are_derivable_witness :
  parse_steps 100 Small.grammar_ab (Some ["a"; "b"]%string) None = Ok ab_state ∧
  ∀ x, x ∈ visited ab_state ∨ x ∈ queue ab_state ∨ x ∈ pending ab_state →
       derivable (make_env Small.grammar_ab (Some ["a"; "b"]%string) None)
         (axioms_of Small.grammar_ab (Some ["a"; "b"]%string) None) x.
Proof.
  split; [exact ab_state_steps|].
  exact (handled_items_are_derivable 100 Small.grammar_ab _ None _ ab_state_steps).
Defined.

Lemma raw_chart_records_valid_steps_witness :
  parse_steps 100 Small.grammar_ab (Some ["a"; "b"]%string) None = Ok ab_state ∧
  ∀ nitem p, p ∈ dd_get (chart ab_state) (KItem nitem) →
    (length p = 1%nat ∨ length p = 2%nat) ∧
    ((∃ x, p = [x] ∧ x ∈ visited ab_state ∧
           shift_step (make_env Small.grammar_ab (Some ["a"; "b"]%string) None) x nitem) ∨
     (∃ x o, p = [x; o] ∧ x ∈ visited ab_state ∧ o ∈ visited ab_state ∧
             complete_step x o nitem)).
Proof.
  split; [exact ab_state_steps|].
  exact (raw_chart_records_valid_steps 100 Small.grammar_ab _ None _ ab_state_steps).
Defined.

Lemma nonterminal_indices_witness :
  parse_steps 100 Small.grammar_ab (Some ["a"; "b"]%string) None = Ok ab_state ∧
  (∀ s o, o ∈ dd_get (nonterminal_lookup ab_state) s ↔
          o ∈ visited ab_state ∧ closed o = true ∧ rule_symbol o = s) ∧
  (∀ s x, x ∈ dd_get (reverse_lookup ab_state) s →
          outside_is_nonterminal x = true ∧ outside_symbol x = s) ∧
  (∀ x, x ∈ visited ab_state → closed x = false → outside_is_nonterminal x = true →
        x ∈ dd_get (reverse_lookup ab_state) (outside_symbol x)).
Proof.
  split; [exact ab_state_steps|].
  exact (nonterminal_indices 100 Small.grammar_ab _ None _ ab_state_steps).
Defined.

Lemma attempted_pairs_fit_witness :
  parse_steps 100 Small.grammar_ab (Some ["a"; "b"]%string) None = Ok ab_state ∧
  ∀ x o, (x, o) ∈ attempted ab_state →
    x ∈ visited ab_state ∧ closed x = false ∧ outside_is_nonterminal x = true ∧
    o ∈ visited ab_state ∧ closed o = true ∧ rule_symbol o = outside_symbol x ∧
    (can_complete x o = true →
     [x; o] ∈ dd_get (chart ab_state) (KItem (complete x o))).
Proof.
  split; [exact ab_state_steps|].
  exact (attempted_pairs_fit 100 Small.grammar_ab _ None _ ab_state_steps).
Defined.

Lemma parse_explores_all_derivable_items_witness :
  @closed_items_wait_for_nothing Small.algebra ∧
  parse_run 100 Small.grammar_ab (Some ["a"; "b"]%string) None = Ok ab_state ∧
  (∀ x, x ∈ visited ab_state ↔
        derivable (make_env Small.grammar_ab (Some ["a"; "b"]%string) None)
          (axioms_of Small.grammar_ab (Some ["a"; "b"]%string) None) x) ∧
  (∀ x nitem, x ∈ visited ab_state →
     shift_step (make_env Small.grammar_ab (Some ["a"; "b"]%string) None) x nitem →
     nitem ∈ visited ab_state ∧ [x] ∈ dd_get (chart ab_state) (KItem nitem)) ∧
  (∀ x o nitem, x ∈ visited ab_state → o ∈ visited ab_state →
     complete_step x o nitem →
     nitem ∈ visited ab_state ∧ [x; o] ∈ dd_get (chart ab_state) (KItem nitem)).
Proof.
  split; [exact small_closed_items_wait_for_nothing|].
  split; [exact ab_state_returned|].
  exact (parse_explores_all_derivable_items 100 Small.grammar_ab _ None _
           small_closed_items_wait_for_nothing ab_state_returned).
Defined.

Lemma goal_found_iff_derivation_exists_witness :
  @closed_items_wait_for_nothing Small.algebra ∧
  parse_run 100 Small.grammar_ab (Some ["a"; "b"]%string) None = Ok ab_state ∧
  (dd_get (chart ab_state) START ≠ ∅ ↔
   ∃ x, derivable (make_env Small.grammar_ab (Some ["a"; "b"]%string) None)
          (axioms_of Small.grammar_ab (Some ["a"; "b"]%string) None) x ∧
        closed x = true ∧ rule_symbol x = start_symbol Small.grammar_ab ∧
        covers_input Small.grammar_ab (Some ["a"; "b"]%string) None x).
Proof.
  split; [exact small_closed_items_wait_for_nothing|].
  split; [exact ab_state_returned|].
  exact (goal_found_iff_derivation_exists 100 Small.grammar_ab _ None _
           small_closed_items_wait_for_nothing ab_state_returned).
Defined.

Lemma queue_has_no_duplicates_witness :
  NoDup (axioms_of Small.grammar_ab (Some ["a"; "b"]%string) None) ∧
  parse_steps 4 Small.grammar_ab (Some ["a"; "b"]%string) None = Ok ab_state_4 ∧
  NoDup (queue ab_state_4) ∧ ∀ x, x ∈ pending ab_state_4 ↔ x ∈ queue ab_state_4.
Proof.
  split; [exact ab_axioms_distinct|]. split; [exact ab_state_4_steps|].
  exact (queue_has_no_duplicates 4 Small.grammar_ab _ None _
           ab_axioms_distinct ab_state_4_steps).
Defined.

Lemma parse_raises_only_assertion_errors_witness :
  NoDup (axioms_of Small.grammar_ab (Some ["a"; "b"]%string) None) ∧
  ((∃ st, parse_steps 4 Small.grammar_ab (Some ["a"; "b"]%string) None = Ok st) ∨
   parse_steps 4 Small.grammar_ab (Some ["a"; "b"]%string) None = Raise AssertionError).
Proof.
  split; [exact ab_axioms_distinct|].
  exact (parse_raises_only_assertion_errors 4 Small.grammar_ab _ None
           ab_axioms_distinct).
Defined.

Lemma single_input_parse_never_raises_witness :
  NoDup (axioms_of Small.grammar_ab (Some ["a"; "b"]%string) None) ∧
  string_bool (Some ["a"; "b"]%string)
    ≠ graph_arg_bool (None : option (@Graph Small.algebra)) ∧
  ∃ st, parse_steps 7 Small.grammar_ab (Some ["a"; "b"]%string) None = Ok st.
Proof.
  split; [exact ab_axioms_distinct|]. split; [done|].
  apply (single_input_parse_never_raises 7 Small.grammar_ab _ None
           ab_axioms_distinct). done.
Defined.

(** Two rules with the same axiom: the second copy of the axiom is taken
    from the queue when it is no longer pending, and
    [pending.remove(item)] raises [KeyError]. *)
Example equal_axioms_raise_key_error :
  parse 100 {| rules := [Small.r_a; Small.r_a]; start_symbol := "S"%string;
               nodelabels := false |} (Some ["b"]%string) None
  = Raise KeyError.
Proof. compute_done. Qed.

(** * Further properties of the extraction *)

Section WalkFurther.
Context `{SetOrder} `{ItemAlgebra}.
Implicit Types (chart : gmap Key (gset (list Item))) (item : Item) (k : Key)
  (rp : gmap RPKey (list Item)).
#[local] Arguments walk_step : simpl never.

Lemma walk_step_unary chart item rp :
  checked chart (KItem item) →
  arity 1 (dd_get chart (KItem item)) →
  ∃ next, [next] ∈ dd_get chart (KItem item) ∧
          walk_step chart (KItem item) rp = Ok (rp, Some (KItem next)).
Proof.
  intros Hch Har. pose proof Hch as [Hne _].
  set (productions := dd_get chart (KItem item)) in *.
  assert ([] ∉ productions) as Hnil by (intros Hn; by apply Har in Hn).
  destruct (firsts_ok _ Hnil) as (firsts & Hfirsts & Hfmem).
  destruct (iter_nonempty _ Hne) as (x0 & xs & Hiter & Hx0).
  pose proof (Har _ Hx0) as Hlen0.
  destruct x0 as [|l0 [|c x0]]; simplify_eq/=.
  destruct (set_pop_is_Some (list_to_set firsts : gset Item)) as [next Hnext].
  { intros He. assert (l0 ∈ (list_to_set firsts : gset Item)) as Hl0.
    { apply elem_of_list_to_set, Hfmem. eauto. }
    rewrite He in Hl0. set_solver. }
  pose proof (set_pop_elem_of _ _ Hnext) as Hnin.
  apply elem_of_list_to_set, Hfmem in Hnin as (ys & Hys).
  pose proof (Har _ Hys) as Hlen1. destruct ys; simplify_eq/=.
  exists next. split; [done|].
  rewrite walk_step_checked by done. fold productions.
  rewrite Hfirsts. simpl.
  rewrite (lengths_of_arity _ 1) by done.
  rewrite size_singleton, set_pop_singleton. simpl. by rewrite Hnext.
Qed.

(** At a pseudo-item whose productions are all unary (shifts), the round
    adds no entry and goes on to the antecedent of one of them. *)
Theorem unary_productions_add_no_entry chart item rp :
  checked chart (KItem item) →
  arity 1 (dd_get chart (KItem item)) →
  ∃ next, [next] ∈ dd_get chart (KItem item) ∧
          walk_step chart (KItem item) rp = Ok (rp, Some (KItem next)).
Proof. apply walk_step_unary. Qed.

(** An item made by shifts alone gets no grouped production: the walk down
    its chain returns the production map as it was, and the regrouping loop
    leaves the item out of the pruned chart. *)
Theorem shift_chains_are_dropped chart d k :
  unary_chain chart d k →
  ∀ fuel rp cky, (d < fuel)%nat →
    walk fuel chart k rp = Ok rp ∧ regroup fuel chart cky k = Ok cky.
Proof.
  intros Hchain.
  assert (∀ fuel rp, (d < fuel)%nat → walk fuel chart k rp = Ok rp) as Hwalk.
  { induction Hchain as [d k Hempty|d item Hch Har _ IH]; intros fuel rp Hfuel.
    - destruct fuel as [|fuel]; [lia|]. simpl.
      by rewrite walk_step_no_productions.
    - destruct fuel as [|fuel]; [lia|]. simpl.
      destruct (walk_step_unary chart item rp Hch Har)
        as (next & Hin & ->). simpl.
      apply IH; [done | lia]. }
  intros fuel rp cky Hfuel. split; [by apply Hwalk|].
  unfold regroup. destruct (key_closed k); simpl; [|done].
  by rewrite Hwalk.
Qed.

(** The walk keeps no history: at an item that is its own only antecedent
    it goes round for ever, whatever the fuel. *)
Theorem walk_has_no_cycle_check chart item :
  checked chart (KItem item) →
  dd_get chart (KItem item) = {[ [item] ]} →
  ∀ fuel rp, walk fuel chart (KItem item) rp = OutOfFuel.
Proof.
  intros Hch Hd fuel rp. induction fuel as [|fuel IH]; [done|]. simpl.
  destruct (walk_step_unary chart item rp Hch) as (next & Hin & ->).
  { intros x. rewrite Hd. by intros ->%elem_of_singleton. }
  rewrite Hd in Hin. apply elem_of_singleton in Hin as [= ->]. done.
Qed.

Lemma elem_of_concat {A} (ls : list (list A)) (x : A) :
  x ∈ concat ls ↔ ∃ l, l ∈ ls ∧ x ∈ l.
Proof.
  induction ls as [|l ls IH]; simpl.
  - split; [by intros ?%elem_of_nil | by intros (? & ?%elem_of_nil & _)].
  - rewrite elem_of_app, IH. split.
    + intros [?|(l' & ? & ?)]; [exists l; split; [left | done]|].
      exists l'. split; [by right | done].
    + intros (l' & [->|?]%elem_of_cons & ?); [by left | right; eauto].
Qed.





(** One round of the walk takes what it adds from the productions of the
    pseudo-item at hand: the items of a new or changed entry, and the next
    pseudo-item, are antecedents of its productions. *)
Lemma walk_step_from_chart chart k rp rp' next :
  walk_step chart k rp = Ok (rp', next) →
  (∀ key value, rp' !! key = Some value →
     rp !! key = Some value ∨
     ∀ x, x ∈ value → ∃ p, p ∈ dd_get chart k ∧ x ∈ p) ∧
  (∀ k', next = Some k' → ∃ p c, k' = KItem c ∧ p ∈ dd_get chart k ∧ c ∈ p).
Proof.
  unfold walk_step. set (productions := dd_get chart k).
  case_bool_decide as Hsize.
  { intros [= <- <-]. split; [by left | done]. }
  destruct k as [|item].
  { intros [= <- <-]. split; [|done]. intros key value.
    destruct (decide (key = RPStart)) as [->|Hkey].
    - rewrite lookup_insert_eq. intros [= <-]. right. intros x.
      rewrite elem_of_concat. by setoid_rewrite elem_of_iter.
    - rewrite lookup_insert_ne by done. by left. }
  case_bool_decide as Hpartial.
  { intros (_ & _ & (prod & _ & Hprod)%bind_ok)%bind_ok.
    destruct prod; [|done]. injection Hprod as <- <-. split; [by left | done]. }
  intros (firsts & Hfirsts & Hrun)%bind_ok.
  apply bind_ok in Hrun as (_ & _ & Hrun).
  apply bind_ok in Hrun as (split_len & _ & Hrun).
  apply bind_ok in Hrun as (rp1 & Hrp1 & Hrun).
  apply bind_ok in Hrun as (c & Hpop & [= <- <-]).
  apply comprehension_ok_inv in Hfirsts. split.
  - intros key value Hlook. case_bool_decide as Hlen; [|injection Hrp1 as <-; by left].
    apply bind_ok in Hrp1 as (_ & _ & Hrp1).
    apply bind_ok in Hrp1 as (x0 & _ & Hrp1).
    apply bind_ok in Hrp1 as (l0 & _ & Hrp1).
    apply bind_ok in Hrp1 as (production & Hproduction & [= <-]).
    destruct (decide (key = RPSlot (outside_symbol l0) (outside_nt_index l0)))
      as [->|Hkey]; [|rewrite lookup_insert_ne in Hlook by done; by left].
    rewrite lookup_insert_eq in Hlook. injection Hlook as <-. right.
    apply comprehension_ok_inv in Hproduction. intros x Hx.
    destruct (proj1 (list_elem_of_lookup _ _) Hx) as [i Hi].
    destruct (Forall2_lookup_r _ _ _ _ _ Hproduction Hi) as (p & Hp & Hidx).
    exists p. split; [by eapply elem_of_iter, list_elem_of_lookup_2|].
    unfold py_index in Hidx. destruct (p !! 1%nat) as [y|] eqn:Hy; [|done].
    injection Hidx as ->. by eapply list_elem_of_lookup_2.
  - intros k' [= <-]. destruct (set_pop _) as [c'|] eqn:Hc; [|done].
    injection Hpop as ->. apply set_pop_elem_of, elem_of_list_to_set in Hc.
    destruct (proj1 (list_elem_of_lookup _ _) Hc) as [i Hi].
    destruct (Forall2_lookup_r _ _ _ _ _ Hfirsts Hi) as (p & Hp & Hidx).
    exists p, c. split; [done|].
    split; [by eapply elem_of_iter, list_elem_of_lookup_2|].
    unfold py_index in Hidx. destruct (p !! 0%nat) as [y|] eqn:Hy; [|done].
    injection Hidx as ->. by eapply list_elem_of_lookup_2.
Qed.

Lemma walk_from_chart fuel chart k rp out :
  walk fuel chart k rp = Ok out →
  reach chart k →
  (∀ key value x, rp !! key = Some value → x ∈ value → reach chart (KItem x)) →
  ∀ key value x, out !! key = Some value → x ∈ value → reach chart (KItem x).
Proof.
  revert k rp. induction fuel as [|fuel IH]; intros k rp Hrun Hk Hrp; [done|].
  simpl in Hrun. apply bind_ok in Hrun as ([rp1 next] & Hstep & Hrun).
  apply walk_step_from_chart in Hstep as [Hentries Hnext].
  assert (∀ key value x, rp1 !! key = Some value → x ∈ value →
                         reach chart (KItem x)) as Hrp1.
  { intros key value x Hlook Hx. destruct (Hentries _ _ Hlook) as [Hold|Hnew].
    - by eapply Hrp.
    - destruct (Hnew _ Hx) as (p & Hp & Hxp). by eapply reach_antecedent. }
  destruct next as [k'|]; [|injection Hrun as <-; exact Hrp1].
  destruct (Hnext k' eq_refl) as (p & c & -> & Hp & Hc).
  eapply IH; [exact Hrun | by eapply reach_antecedent | exact Hrp1].
Qed.

(** The forest refers to the raw chart only: every key of the pruned chart
    can be reached from the goal key through recorded productions, and so
    can every item that one of its grouped productions lists, which is an
    antecedent of a production recorded under a key that can be reached. *)
Theorem forest_items_come_from_the_chart fuel chart out k rp key value x :
  cky_chart fuel chart = Ok out →
  out !! k = Some rp → rp !! key = Some value → x ∈ value →
  reach chart k ∧
  ∃ k' production,
    reach chart k' ∧ production ∈ dd_get chart k' ∧ x ∈ production.
Proof.
  intros Hcky Hk Hkey Hx. unfold cky_chart in Hcky.
  apply bind_ok in Hcky as (visit_items & Hvisit & Hloop).
  destruct (regroup_loop_sound _ _ _ _ _ _ _ Hloop Hk)
    as [(Hin & _ & Hwalk & _)|Hempty]; [|by rewrite lookup_empty in Hempty].
  apply elem_of_iter, (visit_loop_reach _ _ _ Hvisit) in Hin.
  split; [done|].
  assert (reach chart (KItem x)) as Hreach.
  { eapply (walk_from_chart _ _ _ _ _ Hwalk Hin); [|exact Hkey|exact Hx].
    intros ? ? ?. by rewrite lookup_empty. }
  inversion Hreach; subst. eauto.
Qed.

End WalkFurther.

(** ** The traversal terminates *)

Section TraversalTerminates.
Context `{SetOrder} `{ItemAlgebra}.
Implicit Types (chart : gmap Key (gset (list Item))) (k : Key)
  (stack : list Key) (visit_items : gset Key).

Lemma elem_of_antecedent_keys chart k (p : list Item) (c : Item) :
  p ∈ dd_get chart k → c ∈ p → KItem c ∈ antecedent_keys chart.
Proof.
  unfold dd_get. destruct (chart !! k) as [productions|] eqn:Hk; simpl; [|set_solver].
  intros Hp Hc. apply elem_of_union_list.
  eexists. split.
  - apply list_elem_of_fmap. exists (k, productions). split; [done|].
    by apply elem_of_map_to_list.
  - simpl. apply elem_of_union_list. eexists. split.
    + apply list_elem_of_fmap. exists p. split; [done|]. by apply elem_of_elements.
    + apply elem_of_list_to_set, list_elem_of_fmap. by exists c.
Qed.

Lemma length_push_antecedents stack (productions : list (list Item)) :
  length (push_antecedents stack productions) =
  (length stack + length (concat productions))%nat.
Proof.
  unfold push_antecedents. revert stack.
  induction productions as [|p productions IH]; intros stack; simpl; [lia|].
  rewrite IH, length_app.
  assert (∀ st : list Key,
            length (foldl (λ stack citem, KItem citem :: stack) st p)
            = (length st + length p)%nat) as ->; [|lia].
  induction p as [|c p IHp]; intros st; simpl; [lia|]. rewrite IHp. simpl. lia.
Qed.

Lemma sum_remove chart (X : gset Key) k :
  k ∈ X →
  sum_list_with (pushes chart) (elements X) =
  (pushes chart k + sum_list_with (pushes chart) (elements (X ∖ {[k]})))%nat.
Proof.
  intros Hk.
  assert (elements X ≡ₚ k :: elements (X ∖ {[k]})) as ->; [|done].
  rewrite <- elements_union_singleton by set_solver.
  apply elements_proper. apply set_equiv. intros x.
  rewrite elem_of_union, elem_of_singleton, elem_of_difference, elem_of_singleton.
  destruct (decide (x = k)) as [->|]; naive_solver.
Qed.

Lemma visit_loop_enough_fuel fuel chart stack visit_items :
  (∀ k, k ∈ stack → k ∈ ({[START]} ∪ antecedent_keys chart : gset Key)) →
  (length stack +
   sum_list_with (pushes chart)
     (elements (({[START]} ∪ antecedent_keys chart) ∖ visit_items)) ≤ fuel)%nat →
  ∃ out, visit_loop fuel chart stack visit_items = Ok out.
Proof.
  revert stack visit_items.
  induction fuel as [|fuel IH]; intros stack visit_items Hstack Hfuel.
  - destruct stack; [by eexists | simpl in Hfuel; lia].
  - destruct stack as [|k stack]; [by eexists|]. simpl.
    case_bool_decide as Hin.
    + apply IH; [intros k' Hk'; apply Hstack; by right|]. simpl in Hfuel. lia.
    + apply IH.
      * intros k' [Hk'|(p & c & Hp & Hc & ->)]%elem_of_pushed.
        -- apply Hstack. by right.
        -- apply elem_of_union. right. by eapply elem_of_antecedent_keys.
      * rewrite length_push_antecedents. fold (pushes chart k).
        rewrite (sum_remove chart _ k) in Hfuel.
        2:{ apply elem_of_difference. split; [apply Hstack; left | done]. }
        replace (({[START]} ∪ antecedent_keys chart) ∖ ({[k]} ∪ visit_items))
          with ((({[START]} ∪ antecedent_keys chart) ∖ visit_items) ∖ {[k]})
          by set_solver.
        simpl in Hfuel. lia.
Qed.

(** The traversal of lines 232-241 ends on every chart, also on one with
    cycles: [traversal_bound] rounds are enough, and it then has visited
    exactly the keys that can be reached from the goal key. *)
Theorem traversal_terminates fuel chart :
  (traversal_bound chart ≤ fuel)%nat →
  ∃ visit_items,
    visit_loop fuel chart [START] ∅ = Ok visit_items ∧
    ∀ k, k ∈ visit_items ↔ reach chart k.
Proof.
  intros Hfuel. destruct (visit_loop_enough_fuel fuel chart [START] ∅) as [out Hout].
  - intros k ->%list_elem_of_singleton. set_solver.
  - rewrite difference_empty_L. unfold traversal_bound in Hfuel. simpl. lia.
  - exists out. split; [done|]. by apply (visit_loop_reach fuel).
Qed.

End TraversalTerminates.

(** ** The properties of the extraction on the small algebra *)

Lemma unary_productions_add_no_entry_witness :
  checked Inputs.chart_ab (KItem Inputs.item_C1) ∧
  arity 1 (dd_get Inputs.chart_ab (KItem Inputs.item_C1)) ∧
  ∃ next, [next] ∈ dd_get Inputs.chart_ab (KItem Inputs.item_C1) ∧
          walk_step Inputs.chart_ab (KItem Inputs.item_C1) ∅
          = Ok (∅, Some (KItem next)).
Proof.
  assert (checked Inputs.chart_ab (KItem Inputs.item_C1)) as Hch.
  { split; [compute_done | by vm_compute]. }
  assert (arity 1 (dd_get Inputs.chart_ab (KItem Inputs.item_C1))) as Har.
  { change (set_Forall (λ x : list Item, length x = 1%nat)
              (dd_get Inputs.chart_ab (KItem Inputs.item_C1))).
    compute_done. }
  split; [exact Hch|]. split; [exact Har|].
  exact (unary_productions_add_no_entry Inputs.chart_ab Inputs.item_C1 ∅ Hch Har).
Defined.

Lemma item_C1_is_a_shift_chain :
  unary_chain Inputs.chart_ab 1 (KItem Inputs.item_C1).
Proof.
  apply unary_chain_step.
  - split; [compute_done | by vm_compute].
  - change (set_Forall (λ x : list Item, length x = 1%nat)
              (dd_get Inputs.chart_ab (KItem Inputs.item_C1))).
    compute_done.
  - assert (∀ x, [x] ∈ dd_get Inputs.chart_ab (KItem Inputs.item_C1) →
                 x = Inputs.item_C0) as Hone.
    { assert (dd_get Inputs.chart_ab (KItem Inputs.item_C1) = {[ [Inputs.item_C0] ]})
        as -> by compute_done.
      by intros x [= ->]%elem_of_singleton. }
    intros x ->%Hone. apply unary_chain_end. compute_done.
Qed.

Lemma shift_chains_are_dropped_witness :
  unary_chain Inputs.chart_ab 1 (KItem Inputs.item_C1) ∧
  ∀ fuel rp cky, (1 < fuel)%nat →
    walk fuel Inputs.chart_ab (KItem Inputs.item_C1) rp = Ok rp ∧
    regroup fuel Inputs.chart_ab cky (KItem Inputs.item_C1) = Ok cky.
Proof.
  split; [exact item_C1_is_a_shift_chain|].
  exact (shift_chains_are_dropped Inputs.chart_ab 1 (KItem Inputs.item_C1)
           item_C1_is_a_shift_chain).
Defined.

Lemma walk_has_no_cycle_check_witness :
  checked chart_loop (KItem Inputs.item_C1) ∧
  dd_get chart_loop (KItem Inputs.item_C1) = {[ [Inputs.item_C1] ]} ∧
  ∀ fuel rp, walk fuel chart_loop (KItem Inputs.item_C1) rp = OutOfFuel.
Proof.
  assert (checked chart_loop (KItem Inputs.item_C1)) as Hch.
  { split; [compute_done | by vm_compute]. }
  assert (dd_get chart_loop (KItem Inputs.item_C1) = {[ [Inputs.item_C1] ]})
    as Hd by compute_done.
  split; [exact Hch|]. split; [exact Hd|].
  exact (walk_has_no_cycle_check chart_loop Inputs.item_C1 Hch Hd).
Defined.


Lemma traversal_terminates_witness :
  (traversal_bound chart_loop ≤ 5)%nat ∧
  ∃ visit_items,
    visit_loop 5 chart_loop [START] ∅ = Ok visit_items ∧
    ∀ k, k ∈ visit_items ↔ reach chart_loop k.
Proof.
  assert (traversal_bound chart_loop ≤ 5)%nat as Hb by compute_done.
  split; [exact Hb|]. exact (traversal_terminates 5 chart_loop Hb).
Defined.

Lemma parse_graphs_in_order_witness :
  let forest :=
    result_get ∅ (raw_chart ← parse 100 Small.grammar_a None (Some graph_a);
                  cky_chart 100 raw_chart) in
  forest ≠ ∅ ∧
  drain (parse_graphs_next 100 Small.grammar_a) 2 (NotStarted [graph_a])
  = [Yield forest; StopIteration].
Proof.
  intros forest. split; [compute_done|].
  refine (proj1 (parse_graphs_in_order 100 Small.grammar_a [graph_a] [forest] _)).
  constructor; [|constructor].
  exists (result_get ∅ (parse 100 Small.grammar_a None (Some graph_a))).
  split; [apply is_ok_get; vm_compute; reflexivity | compute_done].
Defined.

Lemma forest_items_come_from_the_chart_witness :
  let out := result_get ∅ (cky_chart 100 Inputs.chart_ab) in
  let rp := default ∅ (out !! KItem Inputs.item_S2) in
  cky_chart 100 Inputs.chart_ab = Ok out ∧
  out !! KItem Inputs.item_S2 = Some rp ∧
  rp !! RPSlot "B" 1 = Some [Inputs.item_B1] ∧
  reach Inputs.chart_ab (KItem Inputs.item_S2) ∧
  ∃ k' production,
    reach Inputs.chart_ab k' ∧ production ∈ dd_get Inputs.chart_ab k' ∧
    Inputs.item_B1 ∈ production.
Proof.
  intros out rp.
  assert (cky_chart 100 Inputs.chart_ab = Ok out) as Hcky
    by (apply is_ok_get; vm_compute; reflexivity).
  assert (out !! KItem Inputs.item_S2 = Some rp) as Hk by compute_done.
  assert (rp !! RPSlot "B" 1 = Some [Inputs.item_B1]) as Hkey by compute_done.
  split; [exact Hcky|]. split; [exact Hk|]. split; [exact Hkey|].
  exact (forest_items_come_from_the_chart 100 Inputs.chart_ab out
           (KItem Inputs.item_S2) rp (RPSlot "B" 1) [Inputs.item_B1] Inputs.item_B1
           Hcky Hk Hkey (list_elem_of_here _ _)).
Defined.
